(** * The dependency engine of include/mxnet/engine.h

    The header declares the engine's public surface: the function
    property enumeration, the completion handle [CallbackOnComplete], the
    abstract class [Engine] and its two inline members [PushSync] and
    [CreateCallback].  They are embedded first, from the source.  The
    bodies of the virtual members live in other translation units of the
    repository; the scheduler they implement is modelled afterwards, in
    [Module Scheduler], from the design document. *)

From stdpp Require Import base list sorting.

(** ** Handles

    [engine::Var*], [engine::Opr*], [Engine*] and [void*] are opaque
    addresses; only their identity is ever used. *)

Abbreviation VarHandle := nat.
Abbreviation OprHandle := nat.
Abbreviation EnginePtr := nat.
Abbreviation VoidPtr := nat.

(** ** [enum class FnProperty] *)

Inductive FnProperty : Set :=
| kNormal        (* Normal operation *)
| kCopyFromGPU   (* Copy operation from GPU to other devices *)
| kCopyToGPU     (* Copy operation from CPU to other devices *)
| kAsync.        (* Asynchronous function call *)

#[global] Instance FnProperty_eq_dec : EqDecision FnProperty.
Proof. solve_decision. Defined.

(** The enumerators in declaration order, and the value the compiler
    gives each of them. *)
Definition FnProperty_enumerators : list FnProperty :=
  [kNormal; kCopyFromGPU; kCopyToGPU; kAsync].

Definition FnProperty_value (p : FnProperty) : nat :=
  match p with
  | kNormal => 0
  | kCopyFromGPU => 1
  | kCopyToGPU => 2
  | kAsync => 3
  end.

(** A parameter declared [FnProperty prop = FnProperty::kNormal]: the
    call site either passes a value or leaves the argument out. *)
Definition prop_or_default (prop : option FnProperty) : FnProperty :=
  match prop with
  | Some p => p
  | None => kNormal
  end.

(** ** Effects of pushed functions

    A [void] function acting on the state [W] of the process is a state
    transformer returning [()]. *)

Definition Eff (W A : Type) : Type := W → A * W.

#[global] Instance Eff_ret {W} : MRet (Eff W) := λ A a w, (a, w).
#[global] Instance Eff_bind {W} : MBind (Eff W) :=
  λ A B k m w, k (m w).1 (m w).2.

Definition exec {W A} (m : Eff W A) (w : W) : W := (m w).2.

(** Errors an engine call may raise. *)
Inductive EngineError : Set := ContractViolation.

Inductive Res (A : Type) : Type :=
| Done (a : A)
| Raise (err : EngineError).
Arguments Done {A} a.
Arguments Raise {A} err.

Section Interface.
(** [Context] and [RunContext] come from base.h. *)
Context {Context RunContext : Type}.
Context {W : Type}.

(** *** [class Engine::CallbackOnComplete] *)
Record CallbackOnComplete : Type := mkCallback {
  callback_ : EnginePtr → VoidPtr → Eff W ();   (* the real callback *)
  engine_ : EnginePtr;                          (* the engine passed to it *)
  param_ : VoidPtr                              (* the parameter set on it *)
}.

(** [operator()() const]: the bound callback applied to [engine_] and
    [param_]. *)
Definition call (on_complete : CallbackOnComplete) : Eff W () :=
  callback_ on_complete (engine_ on_complete) (param_ on_complete).

(** [Engine::CreateCallback], a member: [this] is its receiver. *)
Definition CreateCallback (this : EnginePtr)
    (callback : EnginePtr → VoidPtr → Eff W ()) (param : VoidPtr)
  : CallbackOnComplete :=
  {| callback_ := callback; engine_ := this; param_ := param |}.

(** [std::function<void(RunContext)>] and
    [std::function<void(RunContext, CallbackOnComplete)>]. *)
Definition SyncFn : Type := RunContext → Eff W ().
Definition AsyncFn : Type := RunContext → CallbackOnComplete → Eff W ().

(** *** [class Engine]

    The pure virtual members, over the state [E] of an engine object. *)
Class Engine (E : Type) : Type := {
  NewVariable : E → VarHandle * E;
  NewOperator :
    AsyncFn → list VarHandle → list VarHandle → FnProperty →
    E → Res OprHandle * E;
  DeleteOperator : OprHandle → E → E;
  Push : OprHandle → Context → E → E;
  PushAsync :
    AsyncFn → Context → list VarHandle → list VarHandle → FnProperty →
    E → E;
  DeleteVariable : SyncFn → Context → VarHandle → E → E;
  WaitForVar : VarHandle → E → E;
  WaitForAll : E → E
}.

(** [template<typename SyncFn> inline void PushSync(...)]. *)
Definition PushSync `{Engine E} (exec_fn : SyncFn) (exec_ctx : Context)
    (const_vars mutable_vars : list VarHandle) (prop : FnProperty)
  : E → E :=
  PushAsync
    (λ ctx on_complete, exec_fn ctx ;; call on_complete)
    exec_ctx const_vars mutable_vars prop.

(** Calls written with or without the trailing [prop] argument. *)
Definition NewOperator_call `{Engine E} (fn : AsyncFn)
    (const_vars mutable_vars : list VarHandle) (prop : option FnProperty)
  : E → Res OprHandle * E :=
  NewOperator fn const_vars mutable_vars (prop_or_default prop).

Definition PushAsync_call `{Engine E} (exec_fun : AsyncFn)
    (exec_ctx : Context) (const_vars mutable_vars : list VarHandle)
    (prop : option FnProperty) : E → E :=
  PushAsync exec_fun exec_ctx const_vars mutable_vars (prop_or_default prop).

Definition PushSync_call `{Engine E} (exec_fn : SyncFn) (exec_ctx : Context)
    (const_vars mutable_vars : list VarHandle) (prop : option FnProperty)
  : E → E :=
  PushSync exec_fn exec_ctx const_vars mutable_vars (prop_or_default prop).

(** The wrapper as the design document words it: run the function on
    the run context, then invoke the completion handle, once, on the
    state the function left. *)
Definition sync_wrapper (fn : SyncFn) : AsyncFn :=
  λ ctx on_complete w, call on_complete (exec (fn ctx) w).

End Interface.

Arguments CallbackOnComplete : clear implicits.
Arguments SyncFn : clear implicits.
Arguments AsyncFn : clear implicits.
Arguments Engine : clear implicits.

(** * The scheduler behind the interface

    Every definition of this module is modelled from the spec: the
    implementation of the virtual members of [Engine] is not part of the
    header. *)

Module Scheduler.

(** Modelled from the spec: the access mode a pending-queue entry is
    tagged with (section 3, Variable). *)
Inductive AccessMode : Set := ReadAccess | WriteAccess.

#[global] Instance AccessMode_eq_dec : EqDecision AccessMode.
Proof. solve_decision. Defined.

(** Modelled from the spec: a pending-queue entry, (requester,
    access-mode), of the Variable Table, which is missing from the
    source.  [charge] is the part of the requester's wait-count that was
    computed for this variable when the entry was made; promotion gives
    it back. *)
Record Entry : Set := mkEntry {
  requester : nat;
  mode : AccessMode;
  charge : nat
}.

(** Modelled from the spec: the current occupancy of a variable, "either
    a set of concurrently active readers or a single active writer"
    (free / shared-read / exclusive-write). *)
Inductive Occupancy : Set :=
| Free
| SharedRead (rs : list nat)
| ExclusiveWrite (w : nat).

(** Modelled from the spec: a variable of the Variable Table: version
    counter, pending queue in submission order, occupancy; [alive] is
    cleared when the token is freed. *)
Record Var : Set := mkVar {
  version : nat;
  pending : list Entry;
  occupancy : Occupancy;
  alive : bool
}.

(** Modelled from the spec: the life of an invocation: waiting in the
    queues, handed to Worker Dispatch, executing, completion callback
    fired. *)
Inductive Status : Set := Queued | Dispatched | Running | Completed.

#[global] Instance Status_eq_dec : EqDecision Status.
Proof. solve_decision. Defined.

(** Modelled from the spec: what the engine makes observable, in the
    order it happens: an invocation begins execution, its completion
    callback is accepted or rejected, a disposal function is invoked, a
    caller blocked in WaitForVar is released, an operator descriptor is
    freed. *)
Inductive Event : Set :=
| EvBegin (i : nat)
| EvComplete (i : nat)
| EvRejected (i : nat)
| EvDisposed (i : nat) (v : VarHandle)
| EvReleased (i : nat) (v : VarHandle)
| EvFreedOpr (op : OprHandle).

#[global] Instance Event_eq_dec : EqDecision Event.
Proof. solve_decision. Defined.

Definition readers (x : Var) : list nat :=
  match occupancy x with
  | SharedRead rs => rs
  | _ => []
  end.

(** The entries of the queue that wait: all of them, but for the active
    writer at the front. *)
Definition waiting (x : Var) : list Entry :=
  match occupancy x with
  | ExclusiveWrite _ => tail (pending x)
  | _ => pending x
  end.

(** Modelled from the spec: (4.3, steps 1 and 2) what a new access of
    mode [m] must wait for on a variable: a write, every pending or
    active access; a read, the pending or active writers. *)
Definition share (m : AccessMode) (x : Var) : nat :=
  match m with
  | WriteAccess => length (pending x) + length (readers x)
  | ReadAccess => length (filter (λ e, mode e = WriteAccess) (pending x))
  end.

(** Modelled from the spec: (4.3, step 3) the access is appended to the
    queue of the variable; an access with nothing to wait for is the
    occupant at once (a reader joins the occupant set, a writer is the
    active writer at the front of the queue). *)
Definition register_access (i : nat) (m : AccessMode) (x : Var) : Var :=
  let c := share m x in
  if decide (c = 0) then
    match m with
    | ReadAccess =>
        mkVar (version x) (pending x) (SharedRead (readers x ++ [i])) (alive x)
    | WriteAccess =>
        mkVar (version x) (pending x ++ [mkEntry i WriteAccess c])
          (ExclusiveWrite i) (alive x)
    end
  else mkVar (version x) (pending x ++ [mkEntry i m c]) (occupancy x) (alive x).

(** The longest run of readers at the front of a queue, and what is
    behind it. *)
Fixpoint reader_run (q : list Entry) : list Entry * list Entry :=
  match q with
  | [] => ([], [])
  | e :: q' =>
      match mode e with
      | ReadAccess => let '(run, rest) := reader_run q' in (e :: run, rest)
      | WriteAccess => ([], q)
      end
  end.

(** Modelled from the spec: (4.3, completion of a writer) the queue [q]
    left by a writer is scanned forward; a contiguous run of waiting
    readers at its front is promoted, or exactly one waiting writer.
    The result is the variable and the promoted entries. *)
Definition hand_over (ver : nat) (al : bool) (q : list Entry)
  : Var * list Entry :=
  match q with
  | [] => (mkVar ver [] Free al, [])
  | e :: _ =>
      match mode e with
      | WriteAccess => (mkVar ver q (ExclusiveWrite (requester e)) al, [e])
      | ReadAccess =>
          let '(run, rest) := reader_run q in
          (mkVar ver rest (SharedRead (requester <$> run)) al, run)
      end
  end.

(** ** Well-formed variables

    The queue is in submission order; the active readers were submitted
    before everything still queued; the occupancy agrees with the front
    of the queue; a waiting entry is waiting for something. *)

Definition by_rank (e1 e2 : Entry) : Prop := requester e1 ≤ requester e2.

Record var_shape (x : Var) : Prop := mk_var_shape {
  shape_sorted : StronglySorted by_rank (pending x);
  shape_readers : ∀ r e, r ∈ readers x → e ∈ pending x → r ≤ requester e;
  shape_occupancy :
    match occupancy x with
    | Free => pending x = []
    | SharedRead rs =>
        rs ≠ [] ∧ ∀ e, head (pending x) = Some e → mode e = WriteAccess
    | ExclusiveWrite w =>
        ∃ e, head (pending x) = Some e ∧ requester e = w ∧ mode e = WriteAccess
    end;
  shape_charge : ∀ e, e ∈ waiting x → 0 < charge e
}.

(** What the entries of invocation [j] in a list of entries add up to,
    and what [j] is still waiting for, on one variable and on all. *)
Definition refund (j : nat) (q : list Entry) : nat :=
  sum_list_with charge (filter (λ e, requester e = j) q).

Definition owed_at (j : nat) (x : Var) : nat := refund j (waiting x).

Definition owed (j : nat) (vs : list Var) : nat :=
  sum_list_with (owed_at j) vs.

(** Invocation [i] has an access of mode [m] registered on the variable:
    as an active reader or in the queue. *)
Definition present (i : nat) (m : AccessMode) (x : Var) : Prop :=
  (m = ReadAccess ∧ i ∈ readers x) ∨
  ∃ e, e ∈ pending x ∧ requester e = i ∧ mode e = m.

(** Invocation [i] is the occupant of the variable, in mode [m]. *)
Definition holds (i : nat) (m : AccessMode) (x : Var) : Prop :=
  match m with
  | ReadAccess => i ∈ readers x
  | WriteAccess => occupancy x = ExclusiveWrite i
  end.




(** Every occurrence of [b] in the log has an [a] before it. *)
Definition precedes (a b : Event) (l : list Event) : Prop :=
  ∀ l1 l2, l = l1 ++ b :: l2 → a ∈ l1.

(** Two declared accesses conflict when one of them is a write. *)
Definition conflict (m1 m2 : AccessMode) : Prop :=
  m1 = WriteAccess ∨ m2 = WriteAccess.

(** The invocation an event of the log is about. *)
Definition subject (ev : Event) : option nat :=
  match ev with
  | EvBegin i | EvComplete i | EvDisposed i _ | EvReleased i _ => Some i
  | EvRejected _ | EvFreedOpr _ => None
  end.

(** The events that mark the start of the work of an invocation. *)
Definition start_of (ev : Event) : option nat :=
  match ev with
  | EvBegin i | EvDisposed i _ | EvReleased i _ => Some i
  | _ => None
  end.

(** The status an invocation has once an event about it is logged. *)
Definition status_after (ev : Event) (st : Status) : Prop :=
  match ev with
  | EvBegin _ => st = Running ∨ st = Completed
  | _ => st = Completed
  end.

Definition occurrences (ev : Event) (l : list Event) : nat :=
  length (filter (λ ev', ev' = ev) l).

Section Tables.
Context {Context AsyncBody SyncBody : Type}.

(** Modelled from the spec: what an invocation executes: an ad-hoc pushed
    function, a registered operator, the disposal of a variable
    (ScheduleDeletion) or the release of a caller blocked in WaitForVar. *)
Inductive Body : Type :=
| AdHoc (fn : AsyncBody)
| Registered (op : OprHandle)
| Disposal (fn : SyncBody) (v : VarHandle)
| Waiter (v : VarHandle).

(** Modelled from the spec: (section 3, Invocation) one scheduled
    execution with its dependency set, its wait-count and its scheduling
    property. *)
Record Invocation : Type := mkInvocation {
  inv_body : Body;
  inv_ctx : option Context;
  inv_reads : list VarHandle;
  inv_writes : list VarHandle;
  inv_prop : FnProperty;
  wait_count : nat;
  status : Status
}.

(** Modelled from the spec: (section 3, Operator; 4.2) a descriptor of
    the Operator Registry, with the mark of MarkDeleted and the number of
    its outstanding invocations. *)
Record Opr : Type := mkOpr {
  opr_fn : AsyncBody;
  opr_reads : list VarHandle;
  opr_writes : list VarHandle;
  opr_prop : FnProperty;
  opr_marked : bool;
  opr_count : nat
}.

(** Modelled from the spec: the state of the engine.  Handles index the
    tables; an invocation is identified by its rank in submission order.
    A freed operator descriptor leaves [None] in its slot. *)
Record Sched : Type := mkSched {
  vars : list Var;
  invs : list Invocation;
  oprs : list (option Opr);
  log : list Event
}.

Definition init : Sched := mkSched [] [] [] [].

Definition Tables : Type := list Var * list Invocation.

Definition with_status (st : Status) (inv : Invocation) : Invocation :=
  mkInvocation (inv_body inv) (inv_ctx inv) (inv_reads inv) (inv_writes inv)
    (inv_prop inv) (wait_count inv) st.

Definition with_wait (n : nat) (inv : Invocation) : Invocation :=
  mkInvocation (inv_body inv) (inv_ctx inv) (inv_reads inv) (inv_writes inv)
    (inv_prop inv) n (status inv).

(** Modelled from the spec: (4.3, step 4) an invocation whose wait-count
    is zero is handed to Worker Dispatch. *)
Definition ready (inv : Invocation) : Invocation :=
  match status inv with
  | Queued =>
      if decide (wait_count inv = 0) then with_status Dispatched inv else inv
  | _ => inv
  end.

(** Modelled from the spec: (4.3) "each promoted invocation has its
    wait-count decremented; when any invocation's wait-count reaches
    zero, it is dispatched".  The decrement is the charge of the promoted
    entry. *)
Definition promote (e : Entry) (ivs : list Invocation) : list Invocation :=
  alter (λ inv, ready (with_wait (wait_count inv - charge e) inv))
    (requester e) ivs.

Definition promote_all (run : list Entry) (ivs : list Invocation)
  : list Invocation :=
  foldl (λ ivs' e, promote e ivs') ivs run.

(** Modelled from the spec: (4.3, steps 1 to 3) for one variable of the
    dependency set of invocation [i]. *)
Definition register_on (i : nat) (m : AccessMode) (t : Tables)
    (v : VarHandle) : Tables :=
  match t.1 !! v with
  | Some x =>
      (<[v := register_access i m x]> t.1,
       alter (λ inv, with_wait (wait_count inv + share m x) inv) i t.2)
  | None => t
  end.

(** Modelled from the spec: (4.3, completion of a writer) advance the
    version, remove the writer from the front of the queue, promote the
    run of readers now at the front or the single writer now at the
    front.  The version advances on the completion of a write ([bump]):
    the exclusive access of [WaitForVar] writes nothing and leaves it. *)
Definition release_write (bump : bool) (i : nat) (t : Tables)
    (v : VarHandle) : Tables :=
  match t.1 !! v with
  | Some x =>
      match occupancy x, pending x with
      | ExclusiveWrite w, _ :: q =>
          if decide (w = i) then
            let '(x', run) :=
              hand_over (if bump then S (version x) else version x)
                (alive x) q in
            (<[v := x']> t.1, promote_all run t.2)
          else t
      | _, _ => t
      end
  | None => t
  end.

(** Modelled from the spec: (4.3, completion of a reader) remove it from
    the occupant set; if it was the last active reader and the next
    queued entry is a writer, promote that writer. *)
Definition release_read (i : nat) (t : Tables) (v : VarHandle) : Tables :=
  match t.1 !! v with
  | Some x =>
      match occupancy x with
      | SharedRead rs =>
          if decide (i ∈ rs) then
            match filter (λ r, r ≠ i) rs with
            | [] =>
                match pending x with
                | e :: _ =>
                    match mode e with
                    | WriteAccess =>
                        (<[v := mkVar (version x) (pending x)
                                 (ExclusiveWrite (requester e)) (alive x)]> t.1,
                         promote e t.2)
                    | ReadAccess =>
                        (<[v := mkVar (version x) (pending x) Free (alive x)]>
                           t.1, t.2)
                    end
                | [] =>
                    (<[v := mkVar (version x) (pending x) Free (alive x)]> t.1,
                     t.2)
                end
            | rs' =>
                (<[v := mkVar (version x) (pending x) (SharedRead rs')
                         (alive x)]> t.1, t.2)
            end
          else t
      | _ => t
      end
  | None => t
  end.

(** A token that may be named in a dependency set: allocated and not
    freed. *)
Definition usable (vs : list Var) (v : VarHandle) : bool :=
  match vs !! v with
  | Some x => alive x
  | None => false
  end.

(** Modelled from the spec: (4.3, "on every push") the invocation is
    created, registered against each variable of its write-set and of
    its read-set, and dispatched if it has nothing to wait for.  A push
    naming a token that is not usable is refused. *)
Definition push_invocation (body : Body) (ctx : option Context)
    (rs ws : list VarHandle) (prop : FnProperty) (s : Sched) : option Sched :=
  if forallb (usable (vars s)) (ws ++ rs) then
    let i := length (invs s) in
    let t0 := (vars s, invs s ++ [mkInvocation body ctx rs ws prop 0 Queued]) in
    let t1 :=
      foldl (register_on i ReadAccess)
        (foldl (register_on i WriteAccess) t0 ws) rs in
    Some (mkSched t1.1 (alter ready i t1.2) (oprs s) (log s))
  else None.

(** The bodies whose exclusive access is a write of the resource: all
    but the pseudo-invocation of [WaitForVar]. *)
Definition writes_resource (b : Body) : bool :=
  match b with
  | Waiter _ => false
  | _ => true
  end.

(** The operator an invocation is an invocation of. *)
Definition inv_origin (inv : Invocation) : option OprHandle :=
  match inv_body inv with
  | Registered op => Some op
  | _ => None
  end.

Definition with_count (n : nat) (d : Opr) : Opr :=
  mkOpr (opr_fn d) (opr_reads d) (opr_writes d) (opr_prop d) (opr_marked d) n.

Definition with_mark (d : Opr) : Opr :=
  mkOpr (opr_fn d) (opr_reads d) (opr_writes d) (opr_prop d) true (opr_count d).

(** The invocation count of a handle goes down when one of its
    invocations completes. *)
Definition opr_done (o : option OprHandle) (os : list (option Opr))
  : list (option Opr) :=
  match o with
  | Some op => alter (fmap (λ d, with_count (opr_count d - 1) d)) op os
  | None => os
  end.

(** Modelled from the spec: (4.3, "on completion of an invocation, for
    every variable it held"; section 3, Invocation: destroyed after its
    completion callback fires and the bookkeeping is updated). *)
Definition finish (i : nat) (s : Sched) : Sched :=
  match invs s !! i with
  | Some inv =>
      let t :=
        foldl (release_read i)
          (foldl (release_write (writes_resource (inv_body inv)) i)
             (vars s, invs s) (inv_writes inv))
          (inv_reads inv) in
      mkSched t.1 (alter (with_status Completed) i t.2)
        (opr_done (inv_origin inv) (oprs s)) (log s ++ [EvComplete i])
  | None => s
  end.

(** Modelled from the spec: (4.5) the completion callback of invocation
    [i] is invoked.  It completes an invocation that is executing; a
    call for an invocation that is not (a second call, also) is
    detected and rejected. *)
Definition OnComplete (i : nat) (s : Sched) : Sched :=
  match status <$> invs s !! i with
  | Some Running => finish i s
  | _ => mkSched (vars s) (invs s) (oprs s) (log s ++ [EvRejected i])
  end.

(** Modelled from the spec: the static function the engine gives to
    [CreateCallback], which the header does not have.  (4.5, 9) The
    completion callback is a raw function pointer with an opaque
    parameter; the parameter the engine binds names the invocation. *)
Definition OnCompleteStatic (engine : EnginePtr) (param : VoidPtr)
  : Eff Sched () :=
  λ s, ((), OnComplete param s).

(** The handle the engine passes to the function of invocation [i]. *)
Definition completion_handle (this : EnginePtr) (i : nat)
  : CallbackOnComplete Sched :=
  CreateCallback this OnCompleteStatic i.

(** The token of [v] is freed. *)
Definition free_token (v : VarHandle) (vs : list Var) : list Var :=
  alter (λ x, mkVar (version x) (pending x) (occupancy x) false) v vs.

(** One more event in the log. *)
Definition emit (ev : Event) (s : Sched) : Sched :=
  mkSched (vars s) (invs s) (oprs s) (log s ++ [ev]).

(** A worker begins the execution of invocation [i]. *)
Definition begin (i : nat) (s : Sched) : Sched :=
  mkSched (vars s) (alter (with_status Running) i (invs s)) (oprs s)
    (log s ++ [EvBegin i]).

(** Modelled from the spec: (4.1) "the Deletion Manager invokes
    [disposal_fn] and then frees the token", for the deletion [i] of
    variable [v]: the invocation of the disposal function, on the tables
    as they are; the release of the token; the two in this order. *)
Definition invoke_disposal (i : nat) (v : VarHandle) (s : Sched) : Sched :=
  emit (EvDisposed i v) s.

Definition release_token (v : VarHandle) (s : Sched) : Sched :=
  mkSched (free_token v (vars s)) (invs s) (oprs s) (log s).

Definition dispose (i : nat) (v : VarHandle) (s : Sched) : Sched :=
  release_token v (invoke_disposal i v s).

(** Modelled from the spec: (4.4, 4.1, 4.7) Worker Dispatch starts an
    invocation it was handed.  A pushed function then runs until it
    invokes its completion callback; the disposal of a variable invokes
    the disposal function, frees the token and completes; the
    pseudo-invocation of WaitForVar completes and releases the blocked
    caller. *)
Definition WorkerRun (i : nat) (s : Sched) : Sched :=
  match invs s !! i with
  | Some inv =>
      match status inv with
      | Dispatched =>
          match inv_body inv with
          | AdHoc _ | Registered _ => begin i s
          | Disposal _ v => finish i (dispose i v (begin i s))
          | Waiter v => emit (EvReleased i v) (finish i (begin i s))
          end
      | _ => s
      end
  | None => s
  end.

(** ** The public operations *)

(** Modelled from the spec: the body of the pure virtual [NewVariable],
    which the header does not have.  (4.1) [Allocate() → Variable]
    creates a fresh token with version 0, empty queue, no occupant. *)
Definition Allocate (s : Sched) : VarHandle * Sched :=
  (length (vars s),
   mkSched (vars s ++ [mkVar 0 [] Free true]) (invs s) (oprs s) (log s)).

(** Modelled from the spec: the body of the pure virtual [PushAsync],
    which the header does not have.  (6) [PushAsync(fn, context,
    const_vars[], mutable_vars[], property)] pushes one invocation of
    an ad-hoc function. *)
Definition PushAsync (fn : AsyncBody) (ctx : Context)
    (const_vars mutable_vars : list VarHandle) (prop : FnProperty)
    (s : Sched) : Sched :=
  default s
    (push_invocation (AdHoc fn) (Some ctx) const_vars mutable_vars prop s).

(** Modelled from the spec: the body of the pure virtual
    [DeleteVariable], which the header does not have.  (4.1)
    [ScheduleDeletion(var, disposal_fn, context)] enqueues a write-class
    entry on [var]. *)
Definition ScheduleDeletion (fn : SyncBody) (ctx : Context) (v : VarHandle)
    (s : Sched) : Sched :=
  default s (push_invocation (Disposal fn v) (Some ctx) [] [v] kNormal s).

(** Modelled from the spec: the body of the pure virtual [WaitForVar],
    which the header does not have.  (4.7, 8) [WaitForVar(var)] blocks
    the caller until every access on [var] submitted before the call
    has completed: a zero-work pseudo-invocation is pushed on [var], and
    its completion releases the caller.  The pseudo-invocation is
    registered as an exclusive access on [var], the registration of 4.3
    that waits for every earlier access, readers and writers; the
    registration of a read would let it join readers that are still
    active, and the caller would be released before they completed.
    The caller supplies no context. *)
Definition WaitForVar (v : VarHandle) (s : Sched) : Sched :=
  default s (push_invocation (Waiter v) None [] [v] kNormal s).

(** A variable declared in both sets. *)
Definition overlap (read_set write_set : list VarHandle) : bool :=
  existsb (λ v, bool_decide (v ∈ write_set)) read_set.

(** Modelled from the spec: the body of the pure virtual [NewOperator],
    which the header does not have.  (4.2) [Register(fn, read_set,
    write_set, property) → OperatorHandle] validates that the sets are
    disjoint and stores the descriptor. *)
Definition Register (fn : AsyncBody) (read_set write_set : list VarHandle)
    (prop : FnProperty) (s : Sched) : Res OprHandle * Sched :=
  if overlap read_set write_set then (Raise ContractViolation, s)
  else
    (Done (length (oprs s)),
     mkSched (vars s) (invs s)
       (oprs s ++ [Some (mkOpr fn read_set write_set prop false 0)]) (log s)).

(** Modelled from the spec: the body of the pure virtual
    [DeleteOperator], which the header does not have.  (4.2, 4.6)
    [MarkDeleted(handle)] hands the descriptor to the Deletion Manager;
    it frees nothing. *)
Definition MarkDeleted (op : OprHandle) (s : Sched) : Sched :=
  mkSched (vars s) (invs s) (alter (fmap with_mark) op (oprs s)) (log s).

(** Modelled from the spec: the Deletion Manager, which the header does
    not have.  (4.2, 4.6) It frees a descriptor it owns once the
    invocation count of the handle is zero. *)
Definition Reclaim (op : OprHandle) (s : Sched) : Sched :=
  match oprs s !! op with
  | Some (Some d) =>
      if opr_marked d && bool_decide (opr_count d = 0) then
        mkSched (vars s) (invs s) (<[op := None]> (oprs s))
          (log s ++ [EvFreedOpr op])
      else s
  | _ => s
  end.

(** Modelled from the spec: the body of the pure virtual [Push], which
    the header does not have.  (6) [Push(OperatorHandle, context)]: one
    more invocation of a registered operator.  A handle that is freed,
    or was given to the Deletion Manager, is refused. *)
Definition Push (op : OprHandle) (ctx : Context) (s : Sched) : Sched :=
  match oprs s !! op with
  | Some (Some d) =>
      if opr_marked d then s
      else
        match
          push_invocation (Registered op) (Some ctx) (opr_reads d)
            (opr_writes d)
            (opr_prop d) s
        with
        | Some s' =>
            mkSched (vars s') (invs s')
              (alter (fmap (λ d', with_count (S (opr_count d')) d')) op
                 (oprs s')) (log s')
        | None => s
        end
  | _ => s
  end.

(** ** Histories

    What happens to an engine: calls of its public operations by any
    thread, workers starting dispatched invocations, function bodies
    invoking their completion callback, the Deletion Manager reclaiming
    a descriptor. *)
Inductive Action : Type :=
| DoAllocate
| DoRegister (fn : AsyncBody) (read_set write_set : list VarHandle)
    (prop : FnProperty)
| DoMarkDeleted (op : OprHandle)
| DoPush (op : OprHandle) (ctx : Context)
| DoPushAsync (fn : AsyncBody) (ctx : Context)
    (const_vars mutable_vars : list VarHandle) (prop : FnProperty)
| DoScheduleDeletion (fn : SyncBody) (ctx : Context) (v : VarHandle)
| DoWaitForVar (v : VarHandle)
| DoWorkerRun (i : nat)
| DoOnComplete (i : nat)
| DoReclaim (op : OprHandle).

Definition step (s : Sched) (a : Action) : Sched :=
  match a with
  | DoAllocate => (Allocate s).2
  | DoRegister fn rs ws prop => (Register fn rs ws prop s).2
  | DoMarkDeleted op => MarkDeleted op s
  | DoPush op ctx => Push op ctx s
  | DoPushAsync fn ctx cv mv prop => PushAsync fn ctx cv mv prop s
  | DoScheduleDeletion fn ctx v => ScheduleDeletion fn ctx v s
  | DoWaitForVar v => WaitForVar v s
  | DoWorkerRun i => WorkerRun i s
  | DoOnComplete i => OnComplete i s
  | DoReclaim op => Reclaim op s
  end.

Definition run (h : list Action) : Sched := foldl step init h.

(** ** Transitions

    What one action does to the variables, the invocations and the log. *)

Definition core (s : Sched) : list Var * list Invocation * list Event :=
  (vars s, invs s, log s).

(** The dependency sets the engine gives its own pseudo-invocations. *)
Definition body_fits (b : Body) (rs ws : list VarHandle) : Prop :=
  match b with
  | Disposal _ v => rs = [] ∧ ws = [v]
  | Waiter v => rs = [] ∧ ws = [v]
  | _ => True
  end.

Inductive transition (s s' : Sched) : Prop :=
| t_skip : core s' = core s → transition s s'
| t_alloc :
    core s' = (vars s ++ [mkVar 0 [] Free true], invs s, log s) →
    transition s s'
| t_push body ctx rs ws prop s0 :
    push_invocation body ctx rs ws prop s = Some s0 →
    body_fits body rs ws → core s' = core s0 → transition s s'
| t_begin i inv :
    invs s !! i = Some inv → status inv = Dispatched →
    (∀ fn v, inv_body inv ≠ Disposal fn v) → (∀ v, inv_body inv ≠ Waiter v) →
    core s' = core (begin i s) → transition s s'
| t_complete i inv :
    invs s !! i = Some inv → status inv = Running →
    core s' = core (finish i s) → transition s s'
| t_reject i :
    (∀ inv, invs s !! i = Some inv → status inv ≠ Running) →
    core s' = (vars s, invs s, log s ++ [EvRejected i]) → transition s s'
| t_dispose i inv fn v :
    invs s !! i = Some inv → status inv = Dispatched →
    inv_body inv = Disposal fn v →
    core s' = core (finish i (dispose i v (begin i s))) → transition s s'
| t_release i inv v :
    invs s !! i = Some inv → status inv = Dispatched →
    inv_body inv = Waiter v →
    core s' = core (emit (EvReleased i v) (finish i (begin i s))) →
    transition s s'
| t_reclaim op :
    core s' = (vars s, invs s, log s ++ [EvFreedOpr op]) → transition s s'.

(** ** Well-formed tables *)

Definition declares (inv : Invocation) (m : AccessMode) (v : VarHandle)
  : Prop :=
  match m with
  | ReadAccess => v ∈ inv_reads inv
  | WriteAccess => v ∈ inv_writes inv
  end.

(** Invocation [i] exists, has not completed and declared [v] in mode
    [m]. *)
Definition live (ivs : list Invocation) (i : nat) (m : AccessMode)
    (v : VarHandle) : Prop :=
  ∃ inv, ivs !! i = Some inv ∧ status inv ≠ Completed ∧ declares inv m v.

(** The tables agree with each other.  [ex] is the invocation in the
    middle of its registration or of its completion, if any. *)
Record tables_ok (ex : option nat) (t : Tables) : Prop := mk_tables_ok {
  ok_shape : ∀ v x, t.1 !! v = Some x → var_shape x;
  ok_entry : ∀ v x e,
    t.1 !! v = Some x → e ∈ pending x → live t.2 (requester e) (mode e) v;
  ok_reader : ∀ v x r,
    t.1 !! v = Some x → r ∈ readers x → live t.2 r ReadAccess v;
  ok_member : ∀ i inv m v,
    t.2 !! i = Some inv → status inv ≠ Completed → ex ≠ Some i →
    declares inv m v → ∃ x, t.1 !! v = Some x ∧ present i m x;
  ok_count : ∀ i inv, t.2 !! i = Some inv → wait_count inv = owed i t.1;
  ok_started : ∀ i inv,
    t.2 !! i = Some inv → status inv = Dispatched ∨ status inv = Running →
    wait_count inv = 0;
  ok_queued : ∀ i inv,
    t.2 !! i = Some inv → status inv = Queued → ex ≠ Some i →
    0 < wait_count inv
}.

(** What never changes in an invocation, and how its status may move
    while others register or complete. *)
Definition decl (inv : Invocation)
  : Body * option Context * list VarHandle * list VarHandle * FnProperty :=
  (inv_body inv, inv_ctx inv, inv_reads inv, inv_writes inv, inv_prop inv).

Definition evolves (a b : Invocation) : Prop :=
  decl b = decl a ∧
  (status b = status a ∨ (status a = Queued ∧ status b = Dispatched)).

Definition ivs_evolve (ivs ivs' : list Invocation) : Prop :=
  length ivs' = length ivs ∧
  ∀ j inv, ivs !! j = Some inv → ∃ inv', ivs' !! j = Some inv' ∧ evolves inv inv'.

(** The two ways a release by [i] on [v] goes: nothing is held and
    nothing changes, or the variable is handed over, as this says. *)
Definition handed_over (i : nat) (v : nat) (t t' : Tables) : Prop :=
  ∃ x x' run,
    t.1 !! v = Some x ∧ t' = (<[v:=x']> t.1, promote_all run t.2) ∧
    var_shape x' ∧ waiting x = run ++ waiting x' ∧
    (∀ e, e ∈ pending x' → e ∈ pending x) ∧
    (∀ r, r ∈ readers x' →
       (r ∈ readers x ∧ r ≠ i) ∨
       ∃ e, e ∈ run ∧ requester e = r ∧ mode e = ReadAccess) ∧
    (∀ w, occupancy x' = ExclusiveWrite w → ∃ e, e ∈ run ∧ requester e = w) ∧
    (∀ j m, j ≠ i → present j m x → present j m x') ∧
    alive x' = alive x.

(** What a sequence of releases by [i] leaves unchanged. *)
Definition released (i : nat) (t t' : Tables) : Prop :=
  ivs_evolve t.2 t'.2 ∧ length t'.1 = length t.1 ∧
  (∀ u y m, t'.1 !! u = Some y → holds i m y → t.1 !! u = Some y) ∧
  (∀ u y', t'.1 !! u = Some y' → ∃ y, t.1 !! u = Some y ∧ alive y' = alive y).

(** What a sequence of registrations of [i] leaves unchanged. *)
Definition registered (i : nat) (t t' : Tables) : Prop :=
  length t'.1 = length t.1 ∧ length t'.2 = length t.2 ∧
  (∀ j, j ≠ i → t'.2 !! j = t.2 !! j) ∧
  (∀ inv, t.2 !! i = Some inv →
     ∃ inv', t'.2 !! i = Some inv' ∧ decl inv' = decl inv ∧
       status inv' = status inv) ∧
  (∀ u y m, t.1 !! u = Some y → present i m y →
     ∃ y', t'.1 !! u = Some y' ∧ present i m y') ∧
  (∀ u y', t'.1 !! u = Some y' → ∃ y, t.1 !! u = Some y ∧ alive y' = alive y).

(** How the status of invocation [j] moves in one transition that logs
    the events [new]. *)
Inductive moved (j : nat) (b : Body) (new : list Event)
  : Status → Status → Prop :=
| m_same st :
    (∀ ev, ev ∈ new → subject ev ≠ Some j) → moved j b new st st
| m_dispatch :
    (∀ ev, ev ∈ new → subject ev ≠ Some j) → moved j b new Queued Dispatched
| m_begin :
    (∀ fn v, b ≠ Disposal fn v) → (∀ v, b ≠ Waiter v) →
    new = [EvBegin j] → moved j b new Dispatched Running
| m_complete : new = [EvComplete j] → moved j b new Running Completed
| m_dispose fn v :
    b = Disposal fn v → new = [EvBegin j; EvDisposed j v; EvComplete j] →
    moved j b new Dispatched Completed
| m_release v :
    b = Waiter v → new = [EvBegin j; EvComplete j; EvReleased j v] →
    moved j b new Dispatched Completed.

(** What one transition does, for the invariants of the log. *)
Definition summary (s s' : Sched) : Prop :=
  ∃ new,
    log s' = log s ++ new ∧
    (∀ j inv, invs s !! j = Some inv →
       ∃ inv', invs s' !! j = Some inv' ∧ decl inv' = decl inv ∧
         moved j (inv_body inv) new (status inv) (status inv')) ∧
    (∀ j inv', invs s' !! j = Some inv' → length (invs s) ≤ j →
       (status inv' = Queued ∨ status inv' = Dispatched) ∧
       body_fits (inv_body inv') (inv_reads inv') (inv_writes inv')) ∧
    (∀ ev j, ev ∈ new → subject ev = Some j → j < length (invs s)) ∧
    (∀ v x', vars s' !! v = Some x' → alive x' = false →
       (∃ x, vars s !! v = Some x ∧ alive x = false) ∨
       ∃ d, EvDisposed d v ∈ new).

(** The states an engine goes through. *)
Inductive reachable : Sched → Prop :=
| r_init : reachable init
| r_step s s' : reachable s → transition s s' → reachable s'.

(** What holds of every state the engine goes through. *)
Record sched_ok (s : Sched) : Prop := mk_sched_ok {
  sk_tables : tables_ok None (vars s, invs s);
  sk_bodies : ∀ i inv,
    invs s !! i = Some inv →
    body_fits (inv_body inv) (inv_reads inv) (inv_writes inv);
  sk_order : ∀ A B invA invB v mA mB,
    invs s !! A = Some invA → invs s !! B = Some invB → A < B →
    declares invA mA v → declares invB mB v → conflict mA mB →
    status invB ≠ Queued → status invA = Completed;
  sk_completed : ∀ i inv,
    invs s !! i = Some inv → status inv = Completed → EvComplete i ∈ log s;
  sk_logged : ∀ ev i,
    ev ∈ log s → subject ev = Some i →
    ∃ inv, invs s !! i = Some inv ∧ status_after ev (status inv);
  sk_once : ∀ ev i, subject ev = Some i → occurrences ev (log s) ≤ 1;
  sk_kind : ∀ i v inv,
    invs s !! i = Some inv →
    (EvDisposed i v ∈ log s → ∃ fn, inv_body inv = Disposal fn v) ∧
    (EvReleased i v ∈ log s → inv_body inv = Waiter v);
  sk_pseudo : ∀ i inv,
    invs s !! i = Some inv → status inv = Running →
    (∀ fn v, inv_body inv ≠ Disposal fn v) ∧ (∀ v, inv_body inv ≠ Waiter v);
  sk_done : ∀ i v inv,
    invs s !! i = Some inv → status inv = Completed →
    ((∃ fn, inv_body inv = Disposal fn v) → EvDisposed i v ∈ log s) ∧
    (inv_body inv = Waiter v → EvReleased i v ∈ log s);
  sk_precedes : ∀ ev A B invA invB v mA mB,
    invs s !! A = Some invA → invs s !! B = Some invB → A < B →
    declares invA mA v → declares invB mB v → conflict mA mB →
    start_of ev = Some B → precedes (EvComplete A) ev (log s);
  sk_alive : ∀ v x,
    vars s !! v = Some x → alive x = false → ∃ d, EvDisposed d v ∈ log s
}.



(** The invocations of an operator that have not completed, and the
    agreement of the registry with them. *)
Definition uses (op : OprHandle) (inv : Invocation) : nat :=
  if decide (inv_origin inv = Some op ∧ status inv ≠ Completed) then 1 else 0.

Definition outstanding (op : OprHandle) (ivs : list Invocation) : nat :=
  sum_list_with (uses op) ivs.

Definition oprs_ok (s : Sched) : Prop :=
  ∀ op,
    match oprs s !! op with
    | Some (Some d) => opr_count d = outstanding op (invs s)
    | _ => outstanding op (invs s) = 0
    end.

(** The descriptor as it was registered. *)
Definition descriptor (d : Opr)
  : AsyncBody * list VarHandle * list VarHandle * FnProperty :=
  (opr_fn d, opr_reads d, opr_writes d, opr_prop d).

(** The access of invocation [i] on [v] is granted: [i] is the occupant. *)
Definition granted (s : Sched) (i : nat) (m : AccessMode) (v : VarHandle)
  : Prop :=
  ∃ x, vars s !! v = Some x ∧ holds i m x.

End Tables.

Arguments Body : clear implicits.
Arguments Invocation : clear implicits.
Arguments Opr : clear implicits.
Arguments Sched : clear implicits.
Arguments Tables : clear implicits.
Arguments Action : clear implicits.

End Scheduler.

(** * The scheduler as an engine

    The virtual members of [Engine], implemented by the scheduler.
    [WaitForAll] parks its caller until no invocation is outstanding and
    leaves the tables as they are. *)

Section Binding.
Context {Context RunContext W : Type}.

#[export] Instance scheduler_engine :
  Engine Context RunContext W
    (Scheduler.Sched Context (AsyncFn RunContext W) (SyncFn RunContext W)) :=
  {| NewVariable := Scheduler.Allocate;
     NewOperator := Scheduler.Register;
     DeleteOperator := Scheduler.MarkDeleted;
     Push := Scheduler.Push;
     PushAsync := Scheduler.PushAsync;
     DeleteVariable := Scheduler.ScheduleDeletion;
     WaitForVar := Scheduler.WaitForVar;
     WaitForAll := λ s, s |}.

End Binding.

(** * Example histories

    Short histories of an engine whose contexts and function bodies are
    trivial; the statements below are exercised on them. *)

Module Scenarios.
Import Scheduler.

Definition History : Type := list (Action () () ()).

(** Two writers of variable 0; the first runs and completes, then the
    second begins. *)
Definition two_writers : History :=
  [DoAllocate;
   DoPushAsync () () [] [0] kNormal;
   DoPushAsync () () [] [0] kNormal;
   DoWorkerRun 0; DoOnComplete 0;
   DoWorkerRun 1].

(** A writer completes; its function invokes the handle once more. *)
Definition completed_twice : History :=
  [DoAllocate;
   DoPushAsync () () [] [0] kNormal;
   DoWorkerRun 0; DoOnComplete 0; DoOnComplete 0].


(** An operator is registered, pushed once and given to the Deletion
    Manager while its invocation is outstanding. *)
Definition deleted_while_pushed : History :=
  [DoAllocate;
   DoRegister () [] [0] kNormal;
   DoPush 0 ();
   DoMarkDeleted 0].




End Scenarios.

(** * Pushed functions that throw

    A C++ function leaves by returning or by an exception.  The
    embedding of the header above takes pushed functions and callbacks
    that return.  Here the completion handle and the closure of
    [PushSync] are embedded once more, from the source, for functions
    that may throw: the statement after a call that throws is not
    executed, and the state stays as the throw left it. *)

Module Throwing.

Inductive Outcome (Exc A : Type) : Type :=
| Returned (a : A)
| Thrown (x : Exc).
Arguments Returned {Exc A} a.
Arguments Thrown {Exc A} x.

(** A function acting on the state [W] that returns a value or throws. *)
Definition Try (Exc W A : Type) : Type := W → Outcome Exc A * W.

#[export] Instance Try_ret {Exc W} : MRet (Try Exc W) :=
  λ A a w, (Returned a, w).
#[export] Instance Try_bind {Exc W} : MBind (Try Exc W) :=
  λ A B k m w,
    match (m w).1 with
    | Returned a => k a (m w).2
    | Thrown x => (Thrown x, (m w).2)
    end.

Section Members.
Context {Exc RunContext W : Type}.

(** [class Engine::CallbackOnComplete], with a callback that may throw. *)
Record CallbackOnComplete : Type := mkCallback {
  callback_ : EnginePtr → VoidPtr → Try Exc W ();
  engine_ : EnginePtr;
  param_ : VoidPtr
}.

(** [operator()() const]. *)
Definition call (on_complete : CallbackOnComplete) : Try Exc W () :=
  callback_ on_complete (engine_ on_complete) (param_ on_complete).

(** [Engine::CreateCallback]. *)
Definition CreateCallback (this : EnginePtr)
    (callback : EnginePtr → VoidPtr → Try Exc W ()) (param : VoidPtr)
  : CallbackOnComplete :=
  {| callback_ := callback; engine_ := this; param_ := param |}.

Definition SyncFn : Type := RunContext → Try Exc W ().
Definition AsyncFn : Type := RunContext → CallbackOnComplete → Try Exc W ().

(** The closure [PushSync] hands to [PushAsync]:
    [[exec_fn](RunContext ctx, CallbackOnComplete on_complete)
      { exec_fn(ctx); on_complete(); }]. *)
Definition PushSync_lambda (exec_fn : SyncFn) : AsyncFn :=
  λ ctx on_complete, exec_fn ctx ;; call on_complete.

End Members.

Arguments CallbackOnComplete : clear implicits.
Arguments SyncFn : clear implicits.
Arguments AsyncFn : clear implicits.

End Throwing.

(** A function of the embedding above, seen as one that never throws. *)
Definition returning {Exc W A} (m : Eff W A) : Throwing.Try Exc W A :=
  λ w, (Throwing.Returned (m w).1, (m w).2).

Definition returning_handle {Exc W} (on_complete : CallbackOnComplete W)
  : Throwing.CallbackOnComplete Exc W :=
  Throwing.CreateCallback (engine_ on_complete)
    (λ e p, returning (callback_ on_complete e p)) (param_ on_complete).

(** * The header: what the inline members do *)

Module EngineFacts.

Section Members.
Context {Context RunContext W E : Type} `{!Engine Context RunContext W E}.
Implicit Types (fn : AsyncFn RunContext W) (exec_fn : SyncFn RunContext W).
Implicit Types (on_complete : CallbackOnComplete W) (e : E) (w : W).

Lemma call_unfold on_complete w :
  call on_complete w =
  callback_ on_complete (engine_ on_complete) (param_ on_complete) w.
Proof. reflexivity. Qed.

Lemma sync_wrapper_exec exec_fn (ctx : RunContext) on_complete w :
  exec (sync_wrapper exec_fn ctx on_complete) w =
  exec (call on_complete) (exec (exec_fn ctx) w).
Proof. reflexivity. Qed.

(** C2: [PushSync] with a function, a context, two variable lists and a
    property is [PushAsync] with the same context, lists and property of
    the wrapper the design document describes; the wrapper runs the
    function on the run context and then invokes the completion handle
    on the state the function left, which makes one invocation of the
    handle, whatever counts them. *)
Theorem PushSync_is_PushAsync_of_wrapper exec_fn (exec_ctx : Context)
    (const_vars mutable_vars : list VarHandle) (prop : FnProperty) :
  PushSync exec_fn exec_ctx const_vars mutable_vars prop =
  PushAsync (sync_wrapper exec_fn) exec_ctx const_vars mutable_vars prop ∧
  (∀ (ctx : RunContext) on_complete w,
     exec (sync_wrapper exec_fn ctx on_complete) w =
     exec (call on_complete) (exec (exec_fn ctx) w)) ∧
  (∀ (calls : W → nat) on_complete,
     (∀ w, calls (exec (call on_complete) w) = S (calls w)) →
     ∀ (ctx : RunContext) w,
       calls (exec (sync_wrapper exec_fn ctx on_complete) w) =
       S (calls (exec (exec_fn ctx) w))).
Proof.
  split; [reflexivity|]. split; [reflexivity|].
  intros calls on_complete Hcalls ctx w.
  rewrite sync_wrapper_exec. apply Hcalls.
Qed.

(** C3: invoking a completion handle is the call of the bound static
    callback on the bound engine pointer and the bound parameter, and
    nothing else; it returns no value; the handle made by
    [CreateCallback cb param] on engine [this] performs [cb this param]. *)
Theorem CallbackOnComplete_call_is_bound_callback on_complete
    (this : EnginePtr) (cb : EnginePtr → VoidPtr → Eff W ())
    (param : VoidPtr) :
  call on_complete =
    callback_ on_complete (engine_ on_complete) (param_ on_complete) ∧
  call (CreateCallback this cb param) = cb this param ∧
  (∀ w, (call on_complete w).1 = ()).
Proof.
  split; [reflexivity|]. split; [reflexivity|].
  intros w. by destruct (call on_complete w).1.
Qed.

(** C10: a call of [NewOperator], [PushAsync] or [PushSync] that leaves
    the property argument out is the call with [kNormal]. *)
Theorem omitted_prop_is_kNormal fn exec_fn (exec_ctx : Context)
    (const_vars mutable_vars : list VarHandle) :
  NewOperator_call (E := E) fn const_vars mutable_vars None =
    NewOperator_call fn const_vars mutable_vars (Some kNormal) ∧
  PushAsync_call (E := E) fn exec_ctx const_vars mutable_vars None =
    PushAsync_call fn exec_ctx const_vars mutable_vars (Some kNormal) ∧
  PushSync_call (E := E) exec_fn exec_ctx const_vars mutable_vars None =
    PushSync_call exec_fn exec_ctx const_vars mutable_vars (Some kNormal) ∧
  NewOperator_call (E := E) fn const_vars mutable_vars None =
    NewOperator fn const_vars mutable_vars kNormal ∧
  PushAsync_call (E := E) fn exec_ctx const_vars mutable_vars None =
    PushAsync fn exec_ctx const_vars mutable_vars kNormal ∧
  PushSync_call (E := E) exec_fn exec_ctx const_vars mutable_vars None =
    PushSync exec_fn exec_ctx const_vars mutable_vars kNormal.
Proof. by split_and!. Qed.

End Members.

(** C9: [FnProperty] has the four enumerators [kNormal], [kCopyFromGPU],
    [kCopyToGPU] and [kAsync], all different, and no other value. *)
Theorem FnProperty_exactly_four_values :
  (∀ p : FnProperty,
     p = kNormal ∨ p = kCopyFromGPU ∨ p = kCopyToGPU ∨ p = kAsync) ∧
  (∀ p : FnProperty, p ∈ FnProperty_enumerators) ∧
  NoDup FnProperty_enumerators ∧
  length FnProperty_enumerators = 4 ∧
  FnProperty_value <$> FnProperty_enumerators = [0; 1; 2; 3].
Proof.
  split_and!; try done.
  - intros []; auto.
  - intros []; by apply (bool_decide_unpack _).
  - unfold FnProperty_enumerators. by apply (bool_decide_unpack _).
Qed.

(** A world of counters, a handle whose callback counts its invocations
    and a synchronous function that adds ten: the wrapper of [PushSync]
    leaves one invocation more than the function. *)
Lemma PushSync_is_PushAsync_of_wrapper_witness :
  let W := nat in
  let E := Scheduler.Sched () (AsyncFn () W) (SyncFn () W) in
  let exec_fn : SyncFn () W := λ _ w, ((), w + 10) in
  let on_complete : CallbackOnComplete W :=
    CreateCallback 0 (λ _ _ w, ((), S w)) 0 in
  (∀ w, exec (call on_complete) w = S w) ∧
  exec (sync_wrapper exec_fn () on_complete) 5 = 16 ∧
  PushSync (E := E) exec_fn () [] [] kNormal =
  PushAsync (sync_wrapper exec_fn) () [] [] kNormal.
Proof.
  intros W E exec_fn on_complete.
  pose proof (PushSync_is_PushAsync_of_wrapper (E := E) exec_fn () [] []
                kNormal) as (Heq & _ & Hcalls).
  split; [reflexivity|]. split; [|exact Heq].
  apply (Hcalls (λ w, w) on_complete); reflexivity.
Defined.

End EngineFacts.

(** * The scheduler: invariants of every history *)

Module SchedulerFacts.
Import Scheduler.

Lemma refund_app j q1 q2 : refund j (q1 ++ q2) = refund j q1 + refund j q2.
Proof. unfold refund. by rewrite filter_app, sum_list_with_app. Qed.

Lemma refund_cons j e q :
  refund j (e :: q) =
  (if decide (requester e = j) then charge e else 0) + refund j q.
Proof. unfold refund. rewrite filter_cons. case_decide; simpl; lia. Qed.

Lemma refund_none j q : (∀ e, e ∈ q → requester e ≠ j) → refund j q = 0.
Proof.
  induction q as [|e q IH]; intros H; [done|].
  rewrite refund_cons, IH.
  - case_decide as He; [|done]. exfalso. eapply H; [left|done].
  - intros e' He'. apply H. by right.
Qed.

Lemma refund_ge j q e : e ∈ q → requester e = j → charge e ≤ refund j q.
Proof.
  induction q as [|e' q IH]; intros Hin Hj; [by apply elem_of_nil in Hin|].
  rewrite refund_cons. apply elem_of_cons in Hin as [->|Hin].
  - rewrite decide_True by done. lia.
  - specialize (IH Hin Hj). lia.
Qed.

Lemma owed_at_le j vs v x : vs !! v = Some x → owed_at j x ≤ owed j vs.
Proof.
  intros H. apply sum_list_with_in, list_elem_of_lookup. eauto.
Qed.

Lemma owed_insert j vs v x x' :
  vs !! v = Some x →
  owed j (<[v:=x']> vs) + owed_at j x = owed j vs + owed_at j x'.
Proof.
  unfold owed. revert v. induction vs as [|y vs IH]; intros [|v] H; simplify_eq/=.
  - lia.
  - specialize (IH _ H). lia.
Qed.

Lemma owed_snoc j vs x : owed j (vs ++ [x]) = owed j vs + owed_at j x.
Proof. unfold owed. rewrite sum_list_with_app. simpl. lia. Qed.

Lemma reader_run_spec q run rest :
  reader_run q = (run, rest) →
  q = run ++ rest ∧ Forall (λ e, mode e = ReadAccess) run ∧
  ∀ e, head rest = Some e → mode e = WriteAccess.
Proof.
  revert run rest. induction q as [|e q IH]; intros run rest H; simpl in H.
  - simplify_eq. split_and!; [done|constructor|done].
  - destruct (mode e) eqn:Hm.
    + destruct (reader_run q) as [run' rest'] eqn:Hr. simplify_eq.
      destruct (IH _ _ eq_refl) as (-> & Hall & Hhd).
      split_and!; [done|by constructor|done].
    + simplify_eq. split_and!; [done|constructor|].
      intros e' [= <-]. done.
Qed.


(** Registration on one variable *)

Lemma share_read_zero x :
  var_shape x → share ReadAccess x = 0 →
  pending x = [] ∧ waiting x = [] ∧
  ∀ w, occupancy x ≠ ExclusiveWrite w.
Proof.
  intros Hx Hs. simpl in Hs.
  assert (Hnw : ∀ e, e ∈ pending x → mode e ≠ WriteAccess).
  { intros e He Hm. apply length_zero_iff_nil in Hs.
    assert (e ∈ filter (λ e, mode e = WriteAccess) (pending x)) as Hin
      by by apply list_elem_of_filter.
    rewrite Hs in Hin. by apply elem_of_nil in Hin. }
  pose proof (shape_occupancy _ Hx) as Ho. unfold waiting.
  destruct (occupancy x) as [|rs|w] eqn:Hocc.
  - by rewrite Ho.
  - destruct Ho as [_ Ho]. destruct (pending x) as [|e q] eqn:Hp; [done|].
    exfalso. apply (Hnw e); [left|by apply Ho].
  - destruct Ho as (e & Hh & _ & Hm). exfalso. apply (Hnw e); [|done].
    destruct (pending x); simplify_eq/=. left.
Qed.

Lemma share_write_zero x :
  var_shape x → share WriteAccess x = 0 →
  pending x = [] ∧ waiting x = [] ∧ readers x = [] ∧ occupancy x = Free.
Proof.
  intros Hx Hs. simpl in Hs.
  assert (pending x = []) as Hp by (apply length_zero_iff_nil; lia).
  assert (readers x = []) as Hr by (apply length_zero_iff_nil; lia).
  pose proof (shape_occupancy _ Hx) as Ho. unfold waiting, readers in *.
  destruct (occupancy x) as [|rs|w] eqn:Hocc.
  - by rewrite Hp.
  - by destruct Ho as [? _].
  - destruct Ho as (e & Hh & _). by rewrite Hp in Hh.
Qed.

Lemma share_pos_occupied m x :
  var_shape x → share m x ≠ 0 → occupancy x ≠ Free.
Proof.
  intros Hx Hs Hf. pose proof (shape_occupancy _ Hx) as Ho.
  rewrite Hf in Ho. apply Hs. destruct m; simpl; unfold readers;
    rewrite ?Ho, ?Hf; done.
Qed.

Lemma register_access_waiting i m x :
  var_shape x →
  waiting (register_access i m x) =
  waiting x ++
    (if decide (share m x = 0) then [] else [mkEntry i m (share m x)]).
Proof.
  intros Hx. unfold register_access. case_decide as Hs.
  - destruct m.
    + destruct (share_read_zero x Hx Hs) as (Hp & Hw & _).
      unfold waiting at 1. simpl. by rewrite Hw, Hp.
    + destruct (share_write_zero x Hx Hs) as (Hp & Hw & _).
      unfold waiting at 1. simpl. by rewrite Hw, Hp.
  - unfold waiting. simpl. destruct (occupancy x) eqn:Ho; try done.
    pose proof (shape_occupancy _ Hx) as Ho'. rewrite Ho in Ho'.
    destruct Ho' as (e & Hh & _). by destruct (pending x).
Qed.

Lemma register_access_pending i m x e :
  e ∈ pending (register_access i m x) →
  e ∈ pending x ∨ e = mkEntry i m (share m x).
Proof.
  unfold register_access. case_decide; [destruct m|]; simpl;
    rewrite ?elem_of_app, ?list_elem_of_singleton; auto.
Qed.

Lemma register_access_readers i m x r :
  r ∈ readers (register_access i m x) →
  r ∈ readers x ∨ (r = i ∧ m = ReadAccess ∧ share m x = 0).
Proof.
  unfold register_access. case_decide; [destruct m|]; unfold readers; simpl;
    rewrite ?elem_of_app, ?list_elem_of_singleton, ?elem_of_nil; (intuition congruence).
Qed.

Lemma register_access_present_new i m x : present i m (register_access i m x).
Proof.
  unfold register_access, present. case_decide; [destruct m|].
  - left. split; [done|]. unfold readers. simpl. apply elem_of_app. right. left.
  - right. exists (mkEntry i WriteAccess (share WriteAccess x)).
    split; [|done]. simpl. apply elem_of_app. right. left.
  - right. exists (mkEntry i m (share m x)).
    split; [|done]. simpl. apply elem_of_app. right. left.
Qed.

Lemma register_access_present_old i m x j m' :
  var_shape x → present j m' x → present j m' (register_access i m x).
Proof.
  intros Hx [[-> Hr]|(e & He & Hj & Hm)].
  - unfold register_access. case_decide as Hs; [destruct m|].
    + left. split; [done|]. unfold readers at 1. simpl. apply elem_of_app. by left.
    + destruct (share_write_zero x Hx Hs) as (_ & _ & Hrs & _).
      rewrite Hrs in Hr. by apply elem_of_nil in Hr.
    + left. split; [done|]. by unfold readers in *.
  - right. exists e. split; [|done].
    unfold register_access. case_decide; [destruct m|]; simpl;
      rewrite ?elem_of_app; auto.
Qed.

Lemma register_access_shape i m x :
  var_shape x →
  (∀ e, e ∈ pending x → requester e ≤ i) →
  (∀ r, r ∈ readers x → r ≤ i) →
  var_shape (register_access i m x).
Proof.
  intros Hx Hle Hrle.
  assert (Hw := register_access_waiting i m x Hx).
  split.
  - unfold register_access. case_decide as Hs; [destruct m|]; simpl.
    + apply Hx.
    + destruct (share_write_zero x Hx Hs) as (-> & _). simpl.
      repeat constructor.
    + apply StronglySorted_app_2; [|apply Hx|repeat constructor].
      intros e1 e2 H1 ->%list_elem_of_singleton. by apply Hle.
  - intros r e Hr He.
    apply register_access_readers in Hr. apply register_access_pending in He.
    destruct He as [He| ->].
    + destruct Hr as [Hr|(-> & -> & Hs)]; [by eapply shape_readers|].
      destruct (share_read_zero x Hx Hs) as (Hp & _).
      rewrite Hp in He. by apply elem_of_nil in He.
    + simpl. destruct Hr as [Hr|(-> & _)]; [by apply Hrle|done].
  - unfold register_access. case_decide as Hs; [destruct m|]; simpl.
    + destruct (share_read_zero x Hx Hs) as (-> & _). split; [|done].
      by destruct (readers x).
    + destruct (share_write_zero x Hx Hs) as (-> & _). simpl. eauto.
    + pose proof (shape_occupancy _ Hx) as Ho.
      pose proof (share_pos_occupied m x Hx Hs) as Hnf.
      destruct (occupancy x) as [|rs|w] eqn:Hocc; [done| |].
      * destruct Ho as [Hne Hhd]. split; [done|].
        destruct (pending x) as [|e0 q] eqn:Hp; simpl; [|by apply Hhd].
        intros e [= <-]. simpl. destruct m; [|done].
        exfalso. apply Hs. simpl. by rewrite Hp.
      * destruct Ho as (e & Hh & Hr & Hm). exists e.
        destruct (pending x); simplify_eq/=. done.
  - intros e. rewrite Hw, elem_of_app. intros [He|He]; [by apply Hx|].
    case_decide; [by apply elem_of_nil in He|].
    apply list_elem_of_singleton in He as ->. simpl. lia.
Qed.


Ltac no_member :=
  unfold readers, waiting; simpl; intros;
  match goal with H : _ ∈ [] |- _ => by apply elem_of_nil in H end.

Ltac list_cases H :=
  repeat first
    [ apply elem_of_nil in H; contradiction
    | apply elem_of_cons in H as [H|H]; [subst|] ].

Lemma readers_shared ver q rs al : readers (mkVar ver q (SharedRead rs) al) = rs.
Proof. done. Qed.

Lemma var_shape_free ver al : var_shape (mkVar ver [] Free al).
Proof.
  split; simpl.
  - constructor.
  - intros r e Hr. by apply elem_of_nil in Hr.
  - done.
  - intros e He. by apply elem_of_nil in He.
Qed.

Lemma hand_over_spec ver al q x' run :
  StronglySorted by_rank q → (∀ e, e ∈ q → 0 < charge e) →
  hand_over ver al q = (x', run) →
  var_shape x' ∧ q = run ++ waiting x' ∧
  (∀ e, e ∈ pending x' → e ∈ q) ∧
  (∀ r, r ∈ readers x' →
     ∃ e, e ∈ run ∧ requester e = r ∧ mode e = ReadAccess) ∧
  (∀ w, occupancy x' = ExclusiveWrite w → ∃ e, e ∈ run ∧ requester e = w) ∧
  (∀ e, e ∈ q →
     e ∈ pending x' ∨ (mode e = ReadAccess ∧ requester e ∈ readers x')) ∧
  version x' = ver ∧ alive x' = al.
Proof.
  intros Hs Hc H. destruct q as [|e q]; simpl in H.
  { simplify_eq. split_and!; try done; try no_member. apply var_shape_free. }
  destruct (mode e) eqn:Hm.
  - destruct (reader_run q) as [run' rest] eqn:Hr. simplify_eq.
    destruct (reader_run_spec _ _ _ Hr) as (-> & Hall & Hhd).
    change (e :: run' ++ rest) with ((e :: run') ++ rest) in *.
    assert (Forall (λ e, mode e = ReadAccess) (e :: run')) as Hall'
      by by constructor.
    rewrite Forall_forall in Hall'.
    split_and!; try done.
    + split.
      * by eapply StronglySorted_app_1_r.
      * rewrite readers_shared. intros r e' Hin He'.
        apply list_elem_of_fmap in Hin as (e0 & -> & He0).
        by eapply (StronglySorted_app_1_elem_of by_rank).
      * done.
      * unfold waiting. simpl. intros e' He'. apply Hc.
        apply elem_of_app. by right.
    + intros e' He'. apply elem_of_app. by right.
    + rewrite readers_shared. intros r Hin.
      apply list_elem_of_fmap in Hin as (e0 & -> & He0). eauto.
    + rewrite readers_shared.
      intros e' [He'|He']%elem_of_app; [right|by left].
      split; [by apply Hall'|]. apply list_elem_of_fmap. eauto.
  - simplify_eq. split_and!; simpl; try done.
    + split; simpl; try done.
      * unfold readers. simpl. intros r e' Hin. by apply elem_of_nil in Hin.
      * eauto.
      * unfold waiting. simpl. intros e' He'. apply Hc. by right.
    + unfold readers. simpl. intros r Hin. by apply elem_of_nil in Hin.
    + intros w [= <-]. exists e. split; [left|done].
    + intros e' He'. by left.
Qed.

(** The log *)

Lemma occurrences_app ev l1 l2 :
  occurrences ev (l1 ++ l2) = occurrences ev l1 + occurrences ev l2.
Proof. unfold occurrences. by rewrite filter_app, length_app. Qed.

Lemma occurrences_cons ev x l :
  occurrences ev (x :: l) =
  (if decide (x = ev) then 1 else 0) + occurrences ev l.
Proof. unfold occurrences. rewrite filter_cons. by case_decide. Qed.

Lemma occurrences_absent ev l : ev ∉ l → occurrences ev l = 0.
Proof.
  induction l as [|x l IH]; intros H; [done|].
  rewrite occurrences_cons, IH, decide_False; [done| |].
  - intros ->. apply H. left.
  - intros Hin. apply H. by right.
Qed.


Lemma precedes_absent a b l : b ∉ l → precedes a b l.
Proof.
  intros H l1 l2 ->. exfalso. apply H. apply elem_of_app. right. left.
Qed.

Lemma precedes_app a b l new :
  precedes a b l → (b ∈ new → a ∈ l) → precedes a b (l ++ new).
Proof.
  intros Hp Hnew l1 l2 Heq.
  apply app_eq_app in Heq as [k [[-> Hk]|[-> Hk]]].
  - destruct k as [|x k].
    + rewrite app_nil_r in Hnew. simpl in Hk. apply Hnew. rewrite <- Hk. left.
    + simpl in Hk. injection Hk as -> ->.
      eapply Hp. done.
  - apply elem_of_app. left. apply Hnew. rewrite Hk.
    apply elem_of_app. right. left.
Qed.

Lemma start_of_subject ev i : start_of ev = Some i → subject ev = Some i.
Proof. by destruct ev. Qed.

Section TableFacts.
Context {Context AsyncBody SyncBody : Type}.
Local Abbreviation Invocation := (Invocation Context AsyncBody SyncBody).
Local Abbreviation Tables := (Tables Context AsyncBody SyncBody).
Local Abbreviation Sched := (Sched Context AsyncBody SyncBody).
Implicit Types (ivs : list Invocation) (inv a b c : Invocation) (vs : list Var).
Implicit Types (t : Tables) (s : Sched) (x : Var) (e : Entry).

(** How invocations evolve *)

Lemma evolves_refl inv : evolves inv inv.
Proof. split; auto. Qed.

Lemma evolves_trans a b c : evolves a b → evolves b c → evolves a c.
Proof.
  intros [Hd1 Hs1] [Hd2 Hs2]. split; [congruence|].
  destruct Hs1 as [Hs1|[Hs1 Hs1']], Hs2 as [Hs2|[Hs2 Hs2']];
    try (left; congruence); try (right; split; congruence).
Qed.

Lemma ivs_evolve_refl ivs : ivs_evolve ivs ivs.
Proof. split; [done|]. intros j inv H. exists inv. split; [done|apply evolves_refl]. Qed.

Lemma ivs_evolve_trans ivs1 ivs2 ivs3 :
  ivs_evolve ivs1 ivs2 → ivs_evolve ivs2 ivs3 → ivs_evolve ivs1 ivs3.
Proof.
  intros [Hl1 H1] [Hl2 H2]. split; [congruence|].
  intros j inv Hj. destruct (H1 _ _ Hj) as (inv2 & Hj2 & He2).
  destruct (H2 _ _ Hj2) as (inv3 & Hj3 & He3).
  exists inv3. split; [done|]. by eapply evolves_trans.
Qed.

Lemma ivs_evolve_alter (f : Invocation → Invocation) i ivs :
  (∀ inv, ivs !! i = Some inv → evolves inv (f inv)) →
  ivs_evolve ivs (alter f i ivs).
Proof.
  intros Hf. split; [by rewrite length_alter|].
  intros j inv Hj. destruct (decide (i = j)) as [->|Hne].
  - exists (f inv). split; [|by apply Hf].
    by rewrite list_lookup_alter_eq, Hj.
  - exists inv. split; [|apply evolves_refl].
    by rewrite list_lookup_alter_ne.
Qed.

Lemma ivs_evolve_back ivs ivs' j inv' :
  ivs_evolve ivs ivs' → ivs' !! j = Some inv' →
  ∃ inv, ivs !! j = Some inv ∧ evolves inv inv'.
Proof.
  intros [Hl H] Hj.
  destruct (lookup_lt_is_Some_2 ivs j) as [inv Hinv].
  { rewrite <- Hl. by eapply lookup_lt_Some. }
  destruct (H _ _ Hinv) as (inv2 & Hj2 & He). simplify_eq. eauto.
Qed.

Lemma evolves_declares a b m v : evolves a b → declares a m v ↔ declares b m v.
Proof.
  intros [Hd _]. unfold decl in Hd.
  inversion Hd as [[H1 H2 H3 H4 H5]]. destruct m; simpl; by rewrite ?H3, ?H4.
Qed.

Lemma evolves_completed a b :
  evolves a b → status a = Completed ↔ status b = Completed.
Proof. intros [_ [Hs|[Hs1 Hs2]]]; split; congruence. Qed.

Lemma live_evolve ivs ivs' j m v :
  ivs_evolve ivs ivs' → live ivs j m v → live ivs' j m v.
Proof.
  intros [_ H] (inv & Hj & Hs & Hd).
  destruct (H _ _ Hj) as (inv' & Hj' & He).
  exists inv'. split; [done|]. split.
  - by rewrite <- (evolves_completed _ _ He).
  - by apply (evolves_declares _ _ _ _ He).
Qed.

(** Promotion *)

Lemma ready_evolves inv : evolves inv (ready inv).
Proof.
  unfold ready. destruct (status inv) eqn:Hs; try apply evolves_refl.
  case_decide; [|apply evolves_refl].
  split; [done|]. right. done.
Qed.

Lemma with_wait_evolves n inv : evolves inv (with_wait n inv).
Proof. split; [done|]. by left. Qed.

Lemma promote_evolve e ivs : ivs_evolve ivs (promote e ivs).
Proof.
  apply ivs_evolve_alter. intros inv _.
  eapply evolves_trans; [apply with_wait_evolves|apply ready_evolves].
Qed.

Lemma promote_all_evolve run ivs : ivs_evolve ivs (promote_all run ivs).
Proof.
  revert ivs. induction run as [|e run IH]; intros ivs; simpl.
  - apply ivs_evolve_refl.
  - eapply ivs_evolve_trans; [apply promote_evolve|apply IH].
Qed.

Lemma ready_wait inv : wait_count (ready inv) = wait_count inv.
Proof. unfold ready. destruct (status inv); try done. by case_decide. Qed.

Lemma ready_status inv :
  (status (ready inv) = Queued → 0 < wait_count inv) ∧
  (status (ready inv) = Dispatched →
   status inv = Dispatched ∨ wait_count inv = 0).
Proof.
  unfold ready. destruct (status inv) eqn:Hs; simpl;
    try (rewrite Hs; split; [done|auto]).
  case_decide; simpl; [split; [done|auto]|].
  rewrite Hs. split; [lia|done].
Qed.

(** What a run of promotions does to one invocation. *)
Lemma promote_all_lookup run ivs j inv :
  ivs !! j = Some inv →
  ∃ inv', promote_all run ivs !! j = Some inv' ∧
    wait_count inv' = wait_count inv - refund j run ∧
    (status inv' = Dispatched → status inv = Dispatched ∨ wait_count inv' = 0) ∧
    (status inv' = Queued →
     Exists (λ e, requester e = j) run → 0 < wait_count inv').
Proof.
  revert ivs inv. induction run as [|e run IH]; intros ivs inv Hj; simpl.
  - exists inv. split_and!; [done|unfold refund; simpl; lia|auto|].
    intros _ H. by apply Exists_nil in H.
  - destruct (decide (requester e = j)) as [He|He].
    + set (inv1 := ready (with_wait (wait_count inv - charge e) inv)).
      assert (promote e ivs !! j = Some inv1) as H1.
      { unfold promote. rewrite He, list_lookup_alter_eq, Hj. done. }
      destruct (IH _ _ H1) as (inv' & Hl & Hw & Hd & Hq).
      pose proof (ready_status (with_wait (wait_count inv - charge e) inv))
        as [Hrq Hrd].
      pose proof (ready_wait (with_wait (wait_count inv - charge e) inv))
        as Hrw.
      fold inv1 in Hrq, Hrd, Hrw. simpl in *.
      exists inv'. split; [done|]. rewrite refund_cons, decide_True by done.
      split; [lia|]. split.
      * intros Hs. destruct (Hd Hs) as [Hd'|Hd']; [|by right].
        destruct (Hrd Hd') as [?|?]; [by left|right; lia].
      * intros Hs _.
        destruct (decide (Exists (λ e, requester e = j) run)) as [Hex|Hex];
          [by apply Hq|].
        assert (refund j run = 0) as Hz.
        { apply refund_none. intros e' He' Hj'. apply Hex.
          apply Exists_exists. eauto. }
        assert (status inv1 = Queued) as Hs1.
        { destruct (promote_all_evolve run (promote e ivs)) as [_ Hev].
          destruct (Hev _ _ H1) as (inv2 & Hl2 & _ & Hst).
          simplify_eq. destruct Hst as [Hst|[Hst1 Hst2]]; congruence. }
        specialize (Hrq Hs1). lia.
    + assert (promote e ivs !! j = Some inv) as H1.
      { unfold promote. by rewrite list_lookup_alter_ne. }
      destruct (IH _ _ H1) as (inv' & Hl & Hw & Hd & Hq).
      exists inv'. split; [done|]. rewrite refund_cons, decide_False by done.
      split; [done|]. split; [done|].
      intros Hs Hex. apply Hq; [done|].
      apply Exists_cons in Hex as [?|?]; done.
Qed.


(** Handing a variable over to the entries at the front of its queue *)

Lemma handover_ok i vs ivs v x x' run :
  tables_ok (Some i) (vs, ivs) → vs !! v = Some x →
  var_shape x' →
  waiting x = run ++ waiting x' →
  (∀ e, e ∈ pending x' → e ∈ pending x) →
  (∀ r, r ∈ readers x' →
     r ∈ readers x ∨
     ∃ e, e ∈ pending x ∧ requester e = r ∧ mode e = ReadAccess) →
  (∀ j m, j ≠ i → present j m x → present j m x') →
  tables_ok (Some i) (<[v:=x']> vs, promote_all run ivs).
Proof.
  intros Hok Hv Hx' Hw Hp Hr Hm.
  pose proof (promote_all_evolve run ivs) as Hev.
  assert (Hlt : v < length vs) by by eapply lookup_lt_Some.
  split; simpl.
  - intros v' y Hy.
    apply list_lookup_insert_Some in Hy as [(<- & <- & _)|[Hne Hy]]; [done|].
    by eapply (ok_shape _ _ Hok).
  - intros v' y e Hy He. eapply live_evolve; [done|].
    apply list_lookup_insert_Some in Hy as [(<- & <- & _)|[Hne Hy]].
    + eapply (ok_entry _ _ Hok); [done|by apply Hp].
    + by eapply (ok_entry _ _ Hok).
  - intros v' y r Hy Hin. eapply live_evolve; [done|].
    apply list_lookup_insert_Some in Hy as [(<- & <- & _)|[Hne Hy]].
    + destruct (Hr _ Hin) as [Hin'|(e & He & <- & <-)].
      * by eapply (ok_reader _ _ Hok).
      * by eapply (ok_entry _ _ Hok).
    + by eapply (ok_reader _ _ Hok).
  - intros j inv' m v' Hj Hs Hex Hd.
    destruct (ivs_evolve_back _ _ _ _ Hev Hj) as (inv & Hinv & He).
    destruct (ok_member _ _ Hok j inv m v') as (y & Hy & Hpr); simpl; try done.
    { by rewrite (evolves_completed _ _ He). }
    { by apply (evolves_declares _ _ _ _ He). }
    destruct (decide (v' = v)) as [->|Hne].
    + exists x'. split; [by apply list_lookup_insert_eq|].
      assert (y = x) as -> by (simpl in Hy; congruence).
      apply Hm; [congruence|done].
    + exists y. split; [by rewrite list_lookup_insert_ne|done].
  - intros j inv' Hj.
    destruct (ivs_evolve_back _ _ _ _ Hev Hj) as (inv & Hinv & He).
    destruct (promote_all_lookup run _ _ _ Hinv) as (inv2 & Hl & Hwc & _).
    simplify_eq. rewrite Hwc.
    pose proof (ok_count _ _ Hok j inv Hinv) as Hc. simpl in Hc.
    pose proof (owed_insert j vs v x x' Hv) as Hins.
    assert (owed_at j x = refund j run + owed_at j x') as Hsplit.
    { unfold owed_at. by rewrite Hw, refund_app. }
    lia.
  - intros j inv' Hj Hs.
    destruct (ivs_evolve_back _ _ _ _ Hev Hj) as (inv & Hinv & He).
    destruct (promote_all_lookup run _ _ _ Hinv) as (inv2 & Hl & Hwc & Hd & _).
    simplify_eq.
    assert (status inv = Dispatched ∨ status inv = Running ∨
            wait_count inv' = 0) as Hcase.
    { destruct Hs as [Hs|Hs].
      - destruct (Hd Hs); auto.
      - destruct He as [_ [He|[He1 He2]]]; [|congruence].
        right. left. congruence. }
    destruct Hcase as [Hc|[Hc|Hc]]; [| |done].
    + rewrite Hwc, (ok_started _ _ Hok j inv Hinv); [done|by left].
    + rewrite Hwc, (ok_started _ _ Hok j inv Hinv); [done|by right].
  - intros j inv' Hj Hs Hex.
    destruct (ivs_evolve_back _ _ _ _ Hev Hj) as (inv & Hinv & He).
    destruct (promote_all_lookup run _ _ _ Hinv) as (inv2 & Hl & Hwc & _ & Hq).
    simplify_eq.
    assert (status inv = Queued) as Hsq.
    { destruct He as [_ [He|[He1 He2]]]; congruence. }
    pose proof (ok_queued _ _ Hok j inv Hinv Hsq Hex) as Hpos.
    destruct (decide (Exists (λ e, requester e = j) run)) as [Hyes|Hno];
      [by apply Hq|].
    rewrite Hwc, refund_none; [lia|].
    intros e He' Hj'. apply Hno, Exists_exists. eauto.
Qed.

(** Registering one access *)

Lemma register_on_evolve i m t v : ivs_evolve t.2 (register_on i m t v).2.
Proof.
  unfold register_on. destruct (t.1 !! v); [|apply ivs_evolve_refl]. simpl.
  apply ivs_evolve_alter. intros inv _. apply with_wait_evolves.
Qed.

Lemma register_on_ok i m vs ivs v inv :
  tables_ok (Some i) (vs, ivs) → ivs !! i = Some inv → length ivs = S i →
  status inv = Queued → declares inv m v →
  tables_ok (Some i) (register_on i m (vs, ivs) v).
Proof.
  intros Hok Hi Hlen Hst Hdecl.
  pose proof (register_on_evolve i m (vs, ivs) v) as Hev.
  unfold register_on in *. simpl in *.
  destruct (vs !! v) as [x|] eqn:Hv; [|done]. simpl in *.
  assert (Hlt : v < length vs) by by eapply lookup_lt_Some.
  assert (Hx : var_shape x) by by eapply (ok_shape _ _ Hok).
  assert (Hnew : live
    (alter (λ inv0, with_wait (wait_count inv0 + share m x) inv0) i ivs)
    i m v).
  { eexists. split; [by rewrite list_lookup_alter_eq, Hi|].
    simpl. split; [by rewrite Hst|]. by destruct m. }
  split; simpl.
  - intros v' y Hy.
    apply list_lookup_insert_Some in Hy as [(<- & <- & _)|[Hne Hy]];
      [|by eapply (ok_shape _ _ Hok)].
    apply register_access_shape; [done| |].
    + intros e He. destruct (ok_entry _ _ Hok v x e Hv He) as (? & Hl & _).
      apply lookup_lt_Some in Hl. simpl in Hl. lia.
    + intros r Hr. destruct (ok_reader _ _ Hok v x r Hv Hr) as (? & Hl & _).
      apply lookup_lt_Some in Hl. simpl in Hl. lia.
  - intros v' y e Hy He.
    apply list_lookup_insert_Some in Hy as [(<- & <- & _)|[Hne Hy]].
    + apply register_access_pending in He as [He| ->]; [|done].
      eapply live_evolve; [done|]. by eapply (ok_entry _ _ Hok).
    + eapply live_evolve; [done|]. by eapply (ok_entry _ _ Hok).
  - intros v' y r Hy Hr.
    apply list_lookup_insert_Some in Hy as [(<- & <- & _)|[Hne Hy]].
    + apply register_access_readers in Hr as [Hr|(-> & -> & _)]; [|done].
      eapply live_evolve; [done|]. by eapply (ok_reader _ _ Hok).
    + eapply live_evolve; [done|]. by eapply (ok_reader _ _ Hok).
  - intros j inv' m' v' Hj Hs Hex Hd.
    destruct (ivs_evolve_back _ _ _ _ Hev Hj) as (inv0 & Hinv & He).
    destruct (ok_member _ _ Hok j inv0 m' v') as (y & Hy & Hpr); simpl;
      try done.
    { by rewrite (evolves_completed _ _ He). }
    { by apply (evolves_declares _ _ _ _ He). }
    destruct (decide (v' = v)) as [->|Hne].
    + eexists. split; [by apply list_lookup_insert_eq|].
      assert (y = x) as -> by (simpl in Hy; congruence).
      by apply register_access_present_old.
    + exists y. split; [by rewrite list_lookup_insert_ne|done].
  - intros j inv' Hj.
    pose proof (owed_insert j vs v x (register_access i m x) Hv) as Hins.
    assert (owed_at j (register_access i m x) =
            owed_at j x + if decide (j = i) then share m x else 0) as Hsplit.
    { unfold owed_at. rewrite register_access_waiting, refund_app by done.
      f_equal. case_decide as Hz.
      - rewrite Hz. by case_decide.
      - rewrite refund_cons. simpl. unfold refund. simpl.
        destruct (decide (i = j)), (decide (j = i)); try congruence; lia. }
    destruct (decide (j = i)) as [->|Hne].
    + rewrite list_lookup_alter_eq, Hi in Hj. simplify_eq/=.
      pose proof (ok_count _ _ Hok i inv Hi) as Hc. simpl in Hc. lia.
    + rewrite list_lookup_alter_ne in Hj by done.
      pose proof (ok_count _ _ Hok j inv' Hj) as Hc. simpl in Hc. lia.
  - intros j inv' Hj Hs.
    destruct (decide (j = i)) as [->|Hne].
    + rewrite list_lookup_alter_eq, Hi in Hj. simplify_eq/=.
      rewrite Hst in Hs. by destruct Hs.
    + rewrite list_lookup_alter_ne in Hj by done.
      by eapply (ok_started _ _ Hok).
  - intros j inv' Hj Hs Hex.
    rewrite list_lookup_alter_ne in Hj by congruence.
    by eapply (ok_queued _ _ Hok).
Qed.


(** Releasing a variable *)

Lemma tables_ok_weaken i t : tables_ok None t → tables_ok (Some i) t.
Proof.
  intros [H1 H2 H3 H4 H5 H6 H7]. split; try done.
  - intros j inv m v Hj Hs _ Hd. by eapply H4.
  - intros j inv Hj Hs _. by eapply H7.
Qed.

Lemma tables_ok_clean ex vs ivs i inv v x e :
  tables_ok ex (vs, ivs) → ivs !! i = Some inv → wait_count inv = 0 →
  vs !! v = Some x → e ∈ waiting x → requester e ≠ i.
Proof.
  intros Hok Hi Hw Hv He Hr.
  pose proof (ok_count _ _ Hok i inv Hi) as Hc. simpl in Hc.
  pose proof (owed_at_le i vs v x Hv) as Hle.
  pose proof (refund_ge i (waiting x) e He Hr) as Hge.
  pose proof (shape_charge x (ok_shape _ _ Hok v x Hv) e He) as Hpos.
  unfold owed_at in Hle. lia.
Qed.

Lemma release_write_spec bump i vs ivs v :
  (∀ x, vs !! v = Some x → var_shape x) →
  (release_write bump i (vs, ivs) v = (vs, ivs) ∧
   ∀ x, vs !! v = Some x → occupancy x ≠ ExclusiveWrite i) ∨
  handed_over i v (vs, ivs) (release_write bump i (vs, ivs) v).
Proof.
  intros Hsh. unfold release_write. simpl.
  destruct (vs !! v) as [x|] eqn:Hv; [|left; split; [done|by intros ? [=]]].
  specialize (Hsh x eq_refl).
  pose proof (shape_occupancy _ Hsh) as Ho.
  destruct (occupancy x) as [|rs|w] eqn:Hocc;
    try (left; split; [done|intros ? [= <-]; by rewrite Hocc]).
  destruct Ho as (h & Hh & Hrq & Hm).
  destruct (pending x) as [|h' q] eqn:Hp; [done|]. simplify_eq/=.
  case_decide as Hw;
    [|left; split; [done|intros ? [= <-]; rewrite Hocc; congruence]].
  subst i. right.
  destruct (hand_over _ (alive x) q) as [x' run] eqn:Hho.
  assert (Hwait : waiting x = q) by (unfold waiting; by rewrite Hocc, Hp).
  pose proof (shape_sorted _ Hsh) as Hsorted. rewrite Hp in Hsorted.
  apply StronglySorted_inv in Hsorted as [Hsorted _].
  assert (Hc : ∀ e, e ∈ q → 0 < charge e).
  { intros e He. apply (shape_charge _ Hsh). by rewrite Hwait. }
  destruct (hand_over_spec _ _ _ _ _ Hsorted Hc Hho)
    as (Hx' & Hq & Hpe & Hrd & Hex & Hkeep & _ & Hal).
  exists x, x', run. split_and!; try done.
  - by rewrite Hwait.
  - intros e He. rewrite Hp. right. by apply Hpe.
  - intros r Hr. right. by apply Hrd.
  - intros j m Hj [[-> Hr]|(e & He & Hje & Hme)].
    + unfold readers in Hr. rewrite Hocc in Hr. by apply elem_of_nil in Hr.
    + rewrite Hp in He. apply elem_of_cons in He as [->|He]; [done|].
      destruct (Hkeep _ He) as [Hin|[Hmr Hin]].
      * right. eauto.
      * left. split; [congruence|]. by rewrite <- Hje.
Qed.

Lemma release_read_spec i vs ivs v :
  (∀ x, vs !! v = Some x → var_shape x) →
  (release_read i (vs, ivs) v = (vs, ivs) ∧
   ∀ x, vs !! v = Some x → i ∉ readers x) ∨
  (handed_over i v (vs, ivs) (release_read i (vs, ivs) v) ∧
   ∀ x', (release_read i (vs, ivs) v).1 !! v = Some x' → i ∉ readers x').
Proof.
  intros Hsh. unfold release_read. simpl.
  destruct (vs !! v) as [x|] eqn:Hv; [|left; split; [done|by intros ? [=]]].
  specialize (Hsh x eq_refl).
  assert (Hlt : v < length vs) by by eapply lookup_lt_Some.
  pose proof (shape_occupancy _ Hsh) as Ho.
  destruct (occupancy x) as [|rs|w] eqn:Hocc;
    try (left; split; [done|intros ? [= <-]; unfold readers; rewrite Hocc;
                       apply not_elem_of_nil]).
  destruct Ho as [Hne Hhd].
  case_decide as Hin;
    [|left; split; [done|intros ? [= <-]; unfold readers; by rewrite Hocc]].
  right.
  assert (Hwait : waiting x = pending x) by (unfold waiting; by rewrite Hocc).
  assert (Hrs : readers x = rs) by (unfold readers; by rewrite Hocc).
  assert (Hfilter : ∀ r, r ∈ filter (λ r, r ≠ i) rs ↔ r ≠ i ∧ r ∈ rs)
    by (intros r; by rewrite list_elem_of_filter).
  destruct (filter (λ r, r ≠ i) rs) as [|r0 rs'] eqn:Hf.
  - assert (Hnone : ∀ j, j ≠ i → j ∉ rs).
    { intros j Hj Hjin. apply (not_elem_of_nil j), Hfilter. done. }
    destruct (pending x) as [|e q] eqn:Hp.
    + split.
      * exists x, (mkVar (version x) [] Free (alive x)), []. simpl.
        split_and!; try done; try no_member.
        -- apply var_shape_free.
        -- intros j m Hj [[-> Hr]|(e & He & _)].
           ++ rewrite Hrs in Hr. by destruct (Hnone j).
           ++ rewrite Hp in He. by apply elem_of_nil in He.
      * simpl. intros x'. rewrite list_lookup_insert_eq by done. intros [= <-].
        apply not_elem_of_nil.
    + specialize (Hhd e eq_refl). rewrite Hhd. split.
      * exists x,
          (mkVar (version x) (e :: q) (ExclusiveWrite (requester e)) (alive x)),
          [e].
        simpl. split_and!; try done; try no_member.
        -- split; simpl.
           ++ rewrite <- Hp. apply Hsh.
           ++ no_member.
           ++ eauto.
           ++ unfold waiting. simpl. intros e' He'.
              apply (shape_charge _ Hsh). rewrite Hwait. by right.
        -- intros e' He'. by rewrite Hp.
        -- intros w [= <-]. exists e. split; [left|done].
        -- intros j m Hj [[-> Hr]|(e' & He' & Hje & Hme)].
           ++ rewrite Hrs in Hr. by destruct (Hnone j).
           ++ right. exists e'. simpl. by rewrite <- Hp.
      * simpl. intros x'. rewrite list_lookup_insert_eq by done. intros [= <-].
        apply not_elem_of_nil.
  - split.
    + exists x,
        (mkVar (version x) (pending x) (SharedRead (r0 :: rs')) (alive x)), [].
      simpl. split_and!; try done; try no_member.
      * split; simpl.
        -- apply Hsh.
        -- unfold readers at 1. simpl. intros r e Hr He.
           apply (shape_readers _ Hsh); [|done]. rewrite Hrs.
           by apply Hfilter.
        -- done.
        -- unfold waiting. simpl. intros e He. apply (shape_charge _ Hsh).
           by rewrite Hwait.
      * unfold readers at 1. simpl. intros r Hr. left.
        rewrite Hrs. apply Hfilter in Hr. tauto.
      * intros j m Hj [[-> Hr]|(e' & He' & Hje & Hme)].
        -- left. split; [done|]. unfold readers at 1. simpl.
           apply Hfilter. by rewrite <- Hrs.
        -- right. exists e'. done.
    + simpl. intros x'. rewrite list_lookup_insert_eq by done. intros [= <-].
      unfold readers. simpl. intros Hr. apply Hfilter in Hr. tauto.
Qed.

Lemma handed_over_ok i v t t' :
  tables_ok (Some i) t → handed_over i v t t' → tables_ok (Some i) t'.
Proof.
  destruct t as [vs ivs].
  intros Hok (x & x' & run & Hv & -> & Hx' & Hw & Hp & Hr & _ & Hm & _).
  simpl in *. eapply handover_ok; try done.
  intros r Hin. destruct (Hr r Hin) as [[? _]|(e & He & Hre & Hme)]; [by left|].
  right. exists e. split; [|done].
  assert (e ∈ waiting x) as Hew by (rewrite Hw; apply elem_of_app; by left).
  unfold waiting in Hew. destruct (occupancy x); try done.
  destruct (pending x); [done|]. by right.
Qed.

Lemma handed_over_evolve i v t t' : handed_over i v t t' → ivs_evolve t.2 t'.2.
Proof.
  intros (x & x' & run & Hv & -> & _). apply promote_all_evolve.
Qed.

(** A release by [i] gives [i] no access it did not hold. *)
Lemma handed_over_holds i v t t' inv u y' m :
  tables_ok (Some i) t → t.2 !! i = Some inv → wait_count inv = 0 →
  handed_over i v t t' →
  t'.1 !! u = Some y' → holds i m y' →
  u ≠ v ∧ t.1 !! u = Some y' ∨
  u = v ∧ m = ReadAccess ∧ False.
Proof.
  destruct t as [vs ivs].
  intros Hok Hi Hw0
    (x & x' & run & Hv & -> & Hx' & Hw & Hp & Hr & Hex & Hm & _).
  simpl in *. intros Hu Hh.
  assert (Hclean : ∀ e, e ∈ run → requester e ≠ i).
  { intros e He. eapply (tables_ok_clean _ _ _ _ _ _ _ _ Hok Hi Hw0 Hv).
    rewrite Hw. apply elem_of_app. by left. }
  apply list_lookup_insert_Some in Hu as [(<- & <- & _)|[Hne Hu]];
    [|left; split; [congruence|done]].
  exfalso. destruct m; simpl in Hh.
  - destruct (Hr _ Hh) as [[_ ?]|(e & He & Hre & _)]; [done|].
    by apply (Hclean e).
  - destruct (Hex _ Hh) as (e & He & Hre). by apply (Hclean e).
Qed.


Lemma released_refl i t : released i t t.
Proof. split_and!; [apply ivs_evolve_refl|done|done|eauto]. Qed.

Lemma released_trans i t1 t2 t3 :
  released i t1 t2 → released i t2 t3 → released i t1 t3.
Proof.
  intros (He1 & Hl1 & Hh1 & Ha1) (He2 & Hl2 & Hh2 & Ha2). split_and!.
  - by eapply ivs_evolve_trans.
  - congruence.
  - intros u y m Hu Hh. eapply Hh1; [|done]. by eapply Hh2.
  - intros u y3 Hu. destruct (Ha2 _ _ Hu) as (y2 & Hu2 & Hal2).
    destruct (Ha1 _ _ Hu2) as (y1 & Hu1 & Hal1). exists y1. split; congruence.
Qed.

Lemma handed_over_released i v t t' inv :
  tables_ok (Some i) t → t.2 !! i = Some inv → wait_count inv = 0 →
  handed_over i v t t' →
  released i t t' ∧ ∀ y m, t'.1 !! v = Some y → ¬ holds i m y.
Proof.
  intros Hok Hi Hw Hho. split; [split_and!|].
  - by eapply handed_over_evolve.
  - destruct Hho as (x & x' & run & Hv & -> & _). simpl.
    by rewrite length_insert.
  - intros u y m Hu Hh.
    destruct (handed_over_holds _ _ _ _ _ _ _ _ Hok Hi Hw Hho Hu Hh)
      as [[_ ?]|(_ & _ & [])]. done.
  - destruct Hho as (x & x' & run & Hv & -> & Hrest). simpl.
    intros u y' Hu.
    apply list_lookup_insert_Some in Hu as [(<- & <- & _)|[Hne Hu]]; [|eauto].
    exists x. split; [done|]. apply Hrest.
  - intros y m Hu Hh.
    destruct (handed_over_holds _ _ _ _ _ _ _ _ Hok Hi Hw Hho Hu Hh)
      as [[? _]|(_ & _ & [])]. done.
Qed.

Lemma running_evolves ivs ivs' i inv :
  ivs_evolve ivs ivs' → ivs !! i = Some inv → status inv = Running →
  ∃ inv', ivs' !! i = Some inv' ∧ status inv' = Running ∧ decl inv' = decl inv.
Proof.
  intros [_ H] Hi Hs. destruct (H _ _ Hi) as (inv' & Hi' & Hd & Hst).
  exists inv'. split; [done|]. split; [|done].
  destruct Hst as [?|[? ?]]; congruence.
Qed.

Lemma release_write_step bump i inv t v :
  tables_ok (Some i) t → t.2 !! i = Some inv → status inv = Running →
  tables_ok (Some i) (release_write bump i t v) ∧
  released i t (release_write bump i t v) ∧
  ∀ y, (release_write bump i t v).1 !! v = Some y → ¬ holds i WriteAccess y.
Proof.
  destruct t as [vs ivs]. intros Hok Hi Hs.
  assert (Hw : wait_count inv = 0)
    by (eapply (ok_started _ _ Hok); [done|by right]).
  destruct (release_write_spec bump i vs ivs v) as [[-> Hno]|Hho].
  { intros x Hx. by eapply (ok_shape _ _ Hok). }
  - split; [done|]. split; [apply released_refl|].
    simpl. intros y Hy Hh. by apply (Hno y).
  - split; [by eapply handed_over_ok|].
    destruct (handed_over_released _ _ _ _ _ Hok Hi Hw Hho) as [Hrel Hnone].
    split; [done|]. intros y. apply Hnone.
Qed.

Lemma release_read_step i inv t v :
  tables_ok (Some i) t → t.2 !! i = Some inv → status inv = Running →
  tables_ok (Some i) (release_read i t v) ∧
  released i t (release_read i t v) ∧
  ∀ y, (release_read i t v).1 !! v = Some y → ¬ holds i ReadAccess y.
Proof.
  destruct t as [vs ivs]. intros Hok Hi Hs.
  assert (Hw : wait_count inv = 0)
    by (eapply (ok_started _ _ Hok); [done|by right]).
  destruct (release_read_spec i vs ivs v) as [[-> Hno]|[Hho Hno]].
  { intros x Hx. by eapply (ok_shape _ _ Hok). }
  - split; [done|]. split; [apply released_refl|].
    simpl. intros y Hy Hh. by apply (Hno y).
  - split; [by eapply handed_over_ok|].
    destruct (handed_over_released _ _ _ _ _ Hok Hi Hw Hho) as [Hrel Hnone].
    split; [done|]. intros y. apply Hnone.
Qed.

(** Releasing a list of variables, for either mode. *)
Lemma release_fold (f : Tables → nat → Tables) m i inv l t :
  (∀ t v inv, tables_ok (Some i) t → t.2 !! i = Some inv →
     status inv = Running →
     tables_ok (Some i) (f t v) ∧ released i t (f t v) ∧
     ∀ y, (f t v).1 !! v = Some y → ¬ holds i m y) →
  tables_ok (Some i) t → t.2 !! i = Some inv → status inv = Running →
  tables_ok (Some i) (foldl f t l) ∧ released i t (foldl f t l) ∧
  ∀ v y, v ∈ l → (foldl f t l).1 !! v = Some y → ¬ holds i m y.
Proof.
  intros Hf. revert t inv. induction l as [|v l IH]; intros t inv Hok Hi Hs.
  { simpl. split; [done|]. split; [apply released_refl|].
    intros v y Hv. by apply elem_of_nil in Hv. }
  simpl. destruct (Hf t v inv Hok Hi Hs) as (Hok1 & Hrel1 & Hno1).
  destruct (running_evolves _ _ _ _ (proj1 Hrel1) Hi Hs)
    as (inv1 & Hi1 & Hs1 & _).
  destruct (IH _ _ Hok1 Hi1 Hs1) as (Hok2 & Hrel2 & Hno2).
  split; [done|]. split; [by eapply released_trans|].
  intros u y Hu Hy Hh. apply elem_of_cons in Hu as [->|Hu]; [|by eapply Hno2].
  destruct Hrel2 as (_ & _ & Hmono & _).
  apply (Hno1 y); [|done]. by eapply Hmono.
Qed.

Lemma pending_waiting_or_active x e :
  var_shape x → e ∈ pending x →
  e ∈ waiting x ∨ occupancy x = ExclusiveWrite (requester e).
Proof.
  intros Hx He. pose proof (shape_occupancy _ Hx) as Ho. unfold waiting.
  destruct (occupancy x) as [|rs|w]; [by left|by left|].
  destruct Ho as (h & Hh & <- & _).
  destruct (pending x) as [|h' q]; simplify_eq/=.
  apply elem_of_cons in He as [->|He]; [by right|by left].
Qed.

Lemma alter_status_lookup_ne st i ivs j :
  i ≠ j → alter (with_status st) i ivs !! j = ivs !! j.
Proof. apply list_lookup_alter_ne. Qed.

Lemma live_alter_ne st i ivs j m v :
  j ≠ i → live ivs j m v → live (alter (with_status st) i ivs) j m v.
Proof.
  intros Hne (inv & Hj & Hs & Hd). exists inv.
  by rewrite list_lookup_alter_ne.
Qed.

(** Completion keeps the tables well-formed. *)
Lemma release_all_ok bump i inv vs ivs :
  tables_ok None (vs, ivs) → ivs !! i = Some inv → status inv = Running →
  let t :=
    foldl (release_read i)
      (foldl (release_write bump i) (vs, ivs) (inv_writes inv))
      (inv_reads inv) in
  tables_ok None (t.1, alter (with_status Completed) i t.2) ∧
  released i (vs, ivs) t.
Proof.
  intros Hok0 Hi Hs t.
  pose proof (tables_ok_weaken i _ Hok0) as Hok.
  destruct (release_fold (release_write bump i) WriteAccess i inv
              (inv_writes inv) (vs, ivs)) as (Hok1 & Hrel1 & Hno1); try done.
  { intros. by eapply release_write_step. }
  destruct (running_evolves _ _ _ _ (proj1 Hrel1) Hi Hs)
    as (inv1 & Hi1 & Hs1 & _).
  destruct (release_fold (release_read i) ReadAccess i inv1 (inv_reads inv)
              (foldl (release_write bump i) (vs, ivs) (inv_writes inv)))
    as (Hok2 & Hrel2 & Hno2); try done.
  { intros. by eapply release_read_step. }
  fold t in Hok2, Hrel2, Hno2.
  assert (Hrel : released i (vs, ivs) t) by by eapply released_trans.
  split; [|done].
  destruct (running_evolves _ _ _ _ (proj1 Hrel) Hi Hs)
    as (inv2 & Hi2 & Hs2 & Hd2).
  assert (Hw2 : wait_count inv2 = 0)
    by (eapply (ok_started _ _ Hok2); [done|by right]).
  assert (Hfree : ∀ u y m, t.1 !! u = Some y → ¬ holds i m y).
  { intros u y m Hu Hh.
    destruct Hrel as (_ & _ & Hmono & _).
    pose proof (Hmono _ _ _ Hu Hh) as Hu0. simpl in Hu0.
    destruct m; simpl in Hh.
    - destruct (ok_reader _ _ Hok0 u y i Hu0 Hh) as (inv' & Hi' & _ & Hd).
      simpl in Hi'. simplify_eq. simpl in Hd.
      by apply (Hno2 u y Hd Hu).
    - pose proof (shape_occupancy _ (ok_shape _ _ Hok0 u y Hu0)) as Ho.
      rewrite Hh in Ho. destruct Ho as (e & Hhd & Hre & Hme).
      assert (e ∈ pending y) as He
        by (destruct (pending y); simplify_eq/=; left).
      destruct (ok_entry _ _ Hok0 u y e Hu0 He) as (inv' & Hi' & _ & Hd).
      rewrite Hre in Hi'. simpl in Hi'. simplify_eq. rewrite Hme in Hd.
      simpl in Hd.
      destruct Hrel2 as (_ & _ & Hmono2 & _).
      apply (Hno1 u y Hd); [|done]. by eapply (Hmono2 u y WriteAccess). }
  assert (Habsent : ∀ u y e, t.1 !! u = Some y → e ∈ pending y →
                             requester e ≠ i).
  { intros u y e Hu He Hre.
    destruct (pending_waiting_or_active y e (ok_shape _ _ Hok2 u y Hu) He)
      as [Hwt|Hact].
    - destruct t as [vs2 ivs2]. simpl in *.
      by eapply (tables_ok_clean _ _ _ _ _ _ _ _ Hok2 Hi2 Hw2 Hu Hwt).
    - apply (Hfree u y WriteAccess Hu). simpl. by rewrite <- Hre. }
  split; simpl.
  - apply (ok_shape _ _ Hok2).
  - intros u y e Hu He. apply live_alter_ne; [by eapply Habsent|].
    by eapply (ok_entry _ _ Hok2).
  - intros u y r Hu Hr. apply live_alter_ne.
    + intros ->. by apply (Hfree u y ReadAccess Hu).
    + by eapply (ok_reader _ _ Hok2).
  - intros j inv' m v Hj Hst _ Hd.
    destruct (decide (j = i)) as [->|Hne].
    + rewrite list_lookup_alter_eq, Hi2 in Hj. by simplify_eq/=.
    + rewrite list_lookup_alter_ne in Hj by done.
      eapply (ok_member _ _ Hok2); [done..|congruence|done].
  - intros j inv' Hj.
    destruct (decide (j = i)) as [->|Hne].
    + rewrite list_lookup_alter_eq, Hi2 in Hj. simplify_eq/=.
      apply (ok_count _ _ Hok2 i inv2 Hi2).
    + rewrite list_lookup_alter_ne in Hj by done.
      by apply (ok_count _ _ Hok2 j inv').
  - intros j inv' Hj Hst.
    destruct (decide (j = i)) as [->|Hne].
    + rewrite list_lookup_alter_eq, Hi2 in Hj. simplify_eq/=.
      by destruct Hst.
    + rewrite list_lookup_alter_ne in Hj by done.
      by eapply (ok_started _ _ Hok2).
  - intros j inv' Hj Hst _.
    destruct (decide (j = i)) as [->|Hne].
    + rewrite list_lookup_alter_eq, Hi2 in Hj. by simplify_eq/=.
    + rewrite list_lookup_alter_ne in Hj by done.
      eapply (ok_queued _ _ Hok2); [done..|congruence].
Qed.


Lemma registered_refl i t : registered i t t.
Proof. split_and!; eauto. Qed.

Lemma registered_trans i t1 t2 t3 :
  registered i t1 t2 → registered i t2 t3 → registered i t1 t3.
Proof.
  intros (Hl1 & Hk1 & Hn1 & Hi1 & Hp1 & Ha1) (Hl2 & Hk2 & Hn2 & Hi2 & Hp2 & Ha2).
  split_and!; try congruence.
  - intros j Hj. rewrite Hn2, Hn1; done.
  - intros inv Hj. destruct (Hi1 _ Hj) as (inv2 & Hj2 & Hd2 & Hs2).
    destruct (Hi2 _ Hj2) as (inv3 & Hj3 & Hd3 & Hs3).
    exists inv3. split_and!; congruence.
  - intros u y m Hu Hp. destruct (Hp1 _ _ _ Hu Hp) as (y2 & Hu2 & Hpr2).
    by apply (Hp2 _ _ _ Hu2 Hpr2).
  - intros u y3 Hu. destruct (Ha2 _ _ Hu) as (y2 & Hu2 & Hal2).
    destruct (Ha1 _ _ Hu2) as (y1 & Hu1 & Hal1). exists y1. split; congruence.
Qed.

Lemma register_access_alive i m x : alive (register_access i m x) = alive x.
Proof. unfold register_access. case_decide; [destruct m|]; done. Qed.

Lemma decl_declares a b m v : decl b = decl a → declares a m v → declares b m v.
Proof.
  unfold decl. intros Hd. inversion Hd as [[H1 H2 H3 H4 H5]].
  destruct m; simpl; congruence.
Qed.

Lemma register_on_step i m t v inv :
  tables_ok (Some i) t → t.2 !! i = Some inv → length t.2 = S i →
  status inv = Queued → declares inv m v → v < length t.1 →
  tables_ok (Some i) (register_on i m t v) ∧
  registered i t (register_on i m t v) ∧
  ∃ y', (register_on i m t v).1 !! v = Some y' ∧ present i m y'.
Proof.
  destruct t as [vs ivs]. intros Hok Hi Hlen Hs Hd Hlt.
  split; [by eapply register_on_ok|].
  unfold register_on. simpl in *.
  destruct (lookup_lt_is_Some_2 vs v Hlt) as [x Hv]. rewrite Hv. simpl.
  split; [split_and!; simpl|].
  - by rewrite length_insert.
  - by rewrite length_alter.
  - intros j Hne. by rewrite list_lookup_alter_ne.
  - intros inv0 Hj. rewrite list_lookup_alter_eq, Hj. simpl. eauto.
  - intros u y m' Hu Hp. destruct (decide (u = v)) as [->|Hne].
    + rewrite list_lookup_insert_eq by done. eexists. split; [done|].
      assert (y = x) as -> by congruence.
      apply register_access_present_old; [|done].
      by eapply (ok_shape _ _ Hok).
    + rewrite list_lookup_insert_ne by done. eauto.
  - intros u y' Hu.
    apply list_lookup_insert_Some in Hu as [(<- & <- & _)|[Hne Hu]]; [|eauto].
    exists x. split; [done|]. apply register_access_alive.
  - rewrite list_lookup_insert_eq by done. eexists. split; [done|].
    apply register_access_present_new.
Qed.

Lemma register_fold i m l t inv :
  tables_ok (Some i) t → t.2 !! i = Some inv → length t.2 = S i →
  status inv = Queued →
  (∀ v, v ∈ l → declares inv m v ∧ v < length t.1) →
  tables_ok (Some i) (foldl (register_on i m) t l) ∧
  registered i t (foldl (register_on i m) t l) ∧
  ∀ v, v ∈ l →
    ∃ y', (foldl (register_on i m) t l).1 !! v = Some y' ∧ present i m y'.
Proof.
  revert t inv. induction l as [|v l IH]; intros t inv Hok Hi Hlen Hs Hl.
  { simpl. split; [done|]. split; [apply registered_refl|].
    intros v Hv. by apply elem_of_nil in Hv. }
  simpl. destruct (Hl v) as [Hd Hlt]; [left|].
  destruct (register_on_step i m t v inv Hok Hi Hlen Hs Hd Hlt)
    as (Hok1 & Hreg1 & Hnew1).
  pose proof Hreg1 as (Hl1 & Hk1 & Hn1 & Hi1 & Hp1 & Ha1).
  destruct (Hi1 _ Hi) as (inv1 & Hinv1 & Hd1 & Hs1).
  destruct (IH (register_on i m t v) inv1) as (Hok2 & Hreg2 & Hnew2);
    try done; try congruence.
  { intros u Hu. destruct (Hl u) as [Hdu Hltu]; [by right|].
    split; [by eapply decl_declares|congruence]. }
  split; [done|]. split; [by eapply registered_trans|].
  intros u Hu. apply elem_of_cons in Hu as [->|Hu]; [|by apply Hnew2].
  destruct Hnew1 as (y1 & Hy1 & Hpr1).
  destruct Hreg2 as (_ & _ & _ & _ & Hp2 & _). by eapply Hp2.
Qed.

Lemma owed_none i vs :
  (∀ v x e, vs !! v = Some x → e ∈ waiting x → requester e ≠ i) →
  owed i vs = 0.
Proof.
  unfold owed. induction vs as [|x vs IH]; intros H; [done|]. simpl.
  rewrite IH.
  - unfold owed_at. rewrite refund_none; [done|].
    intros e He. by apply (H 0 x e).
  - intros v y e Hv He. by apply (H (S v) y e).
Qed.

Lemma usable_lookup vs v : usable vs v = true → v < length vs.
Proof.
  unfold usable. destruct (vs !! v) eqn:Hv; [|done]. intros _.
  by eapply lookup_lt_Some.
Qed.

Lemma live_snoc ivs new j m v : live ivs j m v → live (ivs ++ [new]) j m v.
Proof.
  intros (inv & Hj & Hs & Hd). exists inv.
  split; [|done]. by apply lookup_app_l_Some.
Qed.

(** A push keeps the tables well-formed; what it changes. *)
Lemma push_invocation_ok body ctx rs ws prop s s' :
  tables_ok None (vars s, invs s) →
  push_invocation body ctx rs ws prop s = Some s' →
  tables_ok None (vars s', invs s') ∧
  length (vars s') = length (vars s) ∧
  (∀ u y', vars s' !! u = Some y' →
     ∃ y, vars s !! u = Some y ∧ alive y' = alive y) ∧
  length (invs s') = S (length (invs s)) ∧
  (∀ j inv, invs s !! j = Some inv → invs s' !! j = Some inv) ∧
  (∃ inv, invs s' !! length (invs s) = Some inv ∧
     decl inv = (body, ctx, rs, ws, prop) ∧
     (status inv = Queued ∨ status inv = Dispatched)) ∧
  oprs s' = oprs s ∧ log s' = log s.
Proof.
  intros Hok0 Hpush. unfold push_invocation in Hpush.
  destruct (forallb (usable (vars s)) (ws ++ rs)) eqn:Huse; [|done].
  rewrite forallb_forall in Huse.
  set (i := length (invs s)) in *.
  set (new := mkInvocation body ctx rs ws prop 0 Queued) in *.
  set (t0 := (vars s, invs s ++ [new])) in *.
  assert (Hi0 : t0.2 !! i = Some new).
  { simpl. by rewrite lookup_app_r, Nat.sub_diag. }
  assert (Hlen0 : length t0.2 = S i).
  { simpl. rewrite length_app. simpl. lia. }
  assert (Hbound : ∀ j m v, live (invs s) j m v → j ≠ i).
  { intros j m v (inv & Hj & _) ->. apply lookup_lt_Some in Hj. lia. }
  assert (Hok : tables_ok (Some i) t0).
  { split; simpl.
    - apply (ok_shape _ _ Hok0).
    - intros v x e Hv He. apply live_snoc. by eapply (ok_entry _ _ Hok0).
    - intros v x r Hv Hr. apply live_snoc. by eapply (ok_reader _ _ Hok0).
    - intros j inv m v Hj Hs Hex Hd.
      apply lookup_app_Some in Hj as [Hj|[Hge Hj]].
      + by eapply (ok_member _ _ Hok0).
      + apply list_lookup_singleton_Some in Hj as [Hz _].
        exfalso. apply Hex. f_equal. lia.
    - intros j inv Hj.
      apply lookup_app_Some in Hj as [Hj|[Hge Hj]].
      + by apply (ok_count _ _ Hok0 j inv).
      + apply list_lookup_singleton_Some in Hj as [Hz <-]. simpl.
        assert (j = i) as -> by lia.
        symmetry. apply owed_none. intros v x e Hv He Hre.
        pose proof (ok_shape _ _ Hok0 v x Hv) as Hx.
        assert (e ∈ pending x) as Hep.
        { unfold waiting in He. destruct (occupancy x); try done.
          destruct (pending x); [done|]. by right. }
        eapply (Hbound (requester e)); [|done].
        by eapply (ok_entry _ _ Hok0).
    - intros j inv Hj Hs.
      apply lookup_app_Some in Hj as [Hj|[Hge Hj]].
      + by eapply (ok_started _ _ Hok0).
      + apply list_lookup_singleton_Some in Hj as [Hz <-]. by destruct Hs.
    - intros j inv Hj Hs Hex.
      apply lookup_app_Some in Hj as [Hj|[Hge Hj]].
      + by eapply (ok_queued _ _ Hok0).
      + apply list_lookup_singleton_Some in Hj as [Hz _].
        exfalso. apply Hex. f_equal. lia. }
  destruct (register_fold i WriteAccess ws t0 new) as (Hok1 & Hreg1 & Hnew1);
    try done.
  { intros v Hv. split; [done|]. apply usable_lookup, Huse.
    apply list_elem_of_In, elem_of_app. by left. }
  set (t1 := foldl (register_on i WriteAccess) t0 ws) in *.
  pose proof Hreg1 as (Hl1 & Hk1 & Hn1 & Hi1 & Hp1 & Ha1).
  destruct (Hi1 _ Hi0) as (inv1 & Hinv1 & Hd1 & Hs1).
  destruct (register_fold i ReadAccess rs t1 inv1) as (Hok2 & Hreg2 & Hnew2);
    try done; try congruence.
  { intros v Hv. split; [by eapply (decl_declares new)|].
    rewrite Hl1. apply usable_lookup, Huse.
    apply list_elem_of_In, elem_of_app. by right. }
  set (t2 := foldl (register_on i ReadAccess) t1 rs) in *.
  pose proof Hreg2 as (Hl2 & Hk2 & Hn2 & Hi2 & Hp2 & Ha2).
  destruct (Hi2 _ Hinv1) as (inv2 & Hinv2 & Hd2 & Hs2).
  assert (Hreg : registered i t0 t2) by by eapply registered_trans.
  injection Hpush as <-. simpl.
  assert (Hev : ivs_evolve t2.2 (alter ready i t2.2)).
  { apply ivs_evolve_alter. intros. apply ready_evolves. }
  pose proof (ready_status inv2) as [Hrq Hrd].
  assert (Hq2 : status inv2 = Queued) by (by rewrite Hs2, Hs1).
  destruct Hreg as (Hl & Hk & Hn & Hi & Hp & Ha).
  split_and!; simpl; try done.
  - split; simpl.
    + apply (ok_shape _ _ Hok2).
    + intros v x e Hv He. eapply live_evolve; [done|].
      by eapply (ok_entry _ _ Hok2).
    + intros v x r Hv Hr. eapply live_evolve; [done|].
      by eapply (ok_reader _ _ Hok2).
    + intros j inv m v Hj Hs _ Hd.
      destruct (decide (j = i)) as [->|Hne].
      * rewrite list_lookup_alter_eq, Hinv2 in Hj. injection Hj as <-.
        assert (declares new m v) as Hdn.
        { eapply (decl_declares (ready inv2)); [|done].
          destruct (ready_evolves inv2) as [Hdr _]. congruence. }
        destruct m; simpl in Hdn.
        -- destruct (Hnew2 v Hdn) as (y & Hy & Hpr). eauto.
        -- destruct (Hnew1 v Hdn) as (y & Hy & Hpr).
           by apply (Hp2 v y WriteAccess).
      * rewrite list_lookup_alter_ne in Hj by done.
        eapply (ok_member _ _ Hok2); [done..|congruence|done].
    + intros j inv Hj.
      destruct (decide (j = i)) as [->|Hne].
      * rewrite list_lookup_alter_eq, Hinv2 in Hj. injection Hj as <-.
        rewrite ready_wait. apply (ok_count _ _ Hok2 i inv2 Hinv2).
      * rewrite list_lookup_alter_ne in Hj by done.
        by apply (ok_count _ _ Hok2 j inv).
    + intros j inv Hj Hs.
      destruct (decide (j = i)) as [->|Hne].
      * rewrite list_lookup_alter_eq, Hinv2 in Hj. injection Hj as <-.
        rewrite ready_wait. destruct Hs as [Hs|Hs].
        -- destruct (Hrd Hs) as [?|?]; [congruence|done].
        -- destruct (ready_evolves inv2) as [_ [?|[? ?]]]; congruence.
      * rewrite list_lookup_alter_ne in Hj by done.
        by eapply (ok_started _ _ Hok2).
    + intros j inv Hj Hs _.
      destruct (decide (j = i)) as [->|Hne].
      * rewrite list_lookup_alter_eq, Hinv2 in Hj. injection Hj as <-.
        rewrite ready_wait. by apply Hrq.
      * rewrite list_lookup_alter_ne in Hj by done.
        eapply (ok_queued _ _ Hok2); [done..|congruence].
  - rewrite length_alter. simpl in Hk. rewrite Hk, length_app. simpl. lia.
  - intros j inv Hj.
    assert (j ≠ i) as Hne by (apply lookup_lt_Some in Hj; lia).
    rewrite list_lookup_alter_ne by done. rewrite Hn by done.
    simpl. by apply lookup_app_l_Some.
  - exists (ready inv2). split; [by rewrite list_lookup_alter_eq, Hinv2|].
    destruct (ready_evolves inv2) as [Hdr Hsr].
    split; [rewrite Hdr, Hd2, Hd1; done|].
    destruct Hsr as [?|[? ?]]; [left|right]; congruence.
Qed.


(** A completion keeps the tables well-formed; what it changes. *)
Lemma finish_ok i inv s :
  tables_ok None (vars s, invs s) →
  invs s !! i = Some inv → status inv = Running →
  tables_ok None (vars (finish i s), invs (finish i s)) ∧
  length (vars (finish i s)) = length (vars s) ∧
  (∀ u y', vars (finish i s) !! u = Some y' →
     ∃ y, vars s !! u = Some y ∧ alive y' = alive y) ∧
  length (invs (finish i s)) = length (invs s) ∧
  (∃ inv', invs (finish i s) !! i = Some inv' ∧ decl inv' = decl inv ∧
     status inv' = Completed) ∧
  (∀ j invj, j ≠ i → invs s !! j = Some invj →
     ∃ inv', invs (finish i s) !! j = Some inv' ∧ evolves invj inv') ∧
  log (finish i s) = log s ++ [EvComplete i] ∧
  oprs (finish i s) = opr_done (inv_origin inv) (oprs s).
Proof.
  intros Hok Hi Hs. unfold finish. rewrite Hi. simpl.
  destruct (release_all_ok (writes_resource (inv_body inv)) i inv (vars s)
              (invs s) Hok Hi Hs)
    as [Hok' (Hev & Hlen & _ & Hal)].
  set (t := foldl (release_read i)
              (foldl (release_write (writes_resource (inv_body inv)) i)
                 (vars s, invs s) (inv_writes inv))
              (inv_reads inv)) in *.
  simpl in *. destruct Hev as [Hlen2 Hev].
  split_and!; try done.
  - by rewrite length_alter.
  - destruct (Hev _ _ Hi) as (inv' & Hi' & Hd & _).
    exists (with_status Completed inv').
    split; [by rewrite list_lookup_alter_eq, Hi'|]. split; [|done].
    rewrite <- Hd. done.
  - intros j invj Hne Hj. destruct (Hev _ _ Hj) as (inv' & Hj' & He).
    exists inv'. split; [|done]. by rewrite list_lookup_alter_ne.
Qed.

Lemma step_transition s (a : Action Context AsyncBody SyncBody) :
  transition s (step s a).
Proof.
  destruct a as [|fn rs ws prop|op|op ctx|fn ctx cv mv prop|fn ctx v|v|i|i|op];
    simpl.
  - by apply t_alloc.
  - apply t_skip. unfold Register. by destruct (overlap rs ws).
  - by apply t_skip.
  - unfold Push. destruct (oprs s !! op) as [[d|]|]; try by apply t_skip.
    destruct (opr_marked d); [by apply t_skip|].
    destruct (push_invocation _ _ _ _ _ s) as [s0|] eqn:Hp;
      [|by apply t_skip].
    by eapply t_push.
  - unfold PushAsync.
    destruct (push_invocation _ _ _ _ _ s) as [s0|] eqn:Hp;
      [|by apply t_skip].
    by eapply t_push.
  - unfold ScheduleDeletion.
    destruct (push_invocation _ _ _ _ _ s) as [s0|] eqn:Hp;
      [|by apply t_skip].
    by eapply t_push.
  - unfold WaitForVar.
    destruct (push_invocation _ _ _ _ _ s) as [s0|] eqn:Hp;
      [|by apply t_skip].
    by eapply t_push.
  - unfold WorkerRun. destruct (invs s !! i) as [inv|] eqn:Hi;
      [|by apply t_skip].
    destruct (status inv) eqn:Hs; try by apply t_skip.
    destruct (inv_body inv) as [fn|op|fn v|v] eqn:Hb.
    + eapply t_begin; try done; by rewrite Hb.
    + eapply t_begin; try done; by rewrite Hb.
    + by eapply t_dispose.
    + by eapply t_release.
  - unfold OnComplete. destruct (invs s !! i) as [inv|] eqn:Hi; simpl.
    + destruct (status inv) eqn:Hs;
        try (apply (t_reject _ _ i); [|done]; intros inv0 Hi0;
             rewrite Hi in Hi0; injection Hi0 as <-; by rewrite Hs).
      by apply (t_complete _ _ i inv).
    + apply (t_reject _ _ i); [|done]. intros inv0 Hi0. by rewrite Hi in Hi0.
  - unfold Reclaim. destruct (oprs s !! op) as [[d|]|]; try by apply t_skip.
    destruct (opr_marked d && bool_decide (opr_count d = 0));
      [by apply (t_reclaim _ _ op)|by apply t_skip].
Qed.


(** Safety of one state: occupants wait for nobody *)

Lemma pending_waiting_or_head x e :
  var_shape x → e ∈ pending x →
  e ∈ waiting x ∨
  (head (pending x) = Some e ∧ occupancy x = ExclusiveWrite (requester e) ∧
   mode e = WriteAccess).
Proof.
  intros Hx He. pose proof (shape_occupancy _ Hx) as Ho. unfold waiting.
  destruct (occupancy x) as [|rs|w]; [by left|by left|].
  destruct Ho as (h & Hh & <- & Hm).
  destruct (pending x) as [|h' q]; simplify_eq/=.
  apply elem_of_cons in He as [->|He]; [by right|by left].
Qed.

Lemma head_least x e0 e :
  var_shape x → head (pending x) = Some e0 → e ∈ pending x →
  requester e0 ≤ requester e.
Proof.
  intros Hx Hh He. pose proof (shape_sorted _ Hx) as Hs.
  destruct (pending x) as [|h q]; simplify_eq/=.
  apply StronglySorted_inv in Hs as [_ Hall].
  apply elem_of_cons in He as [->|He]; [done|].
  rewrite Forall_forall in Hall. by apply Hall.
Qed.

(** Whoever occupies a variable finds every conflicting access submitted
    before its own completed. *)
Lemma holder_excludes vs ivs v x A B invA mA mB :
  tables_ok None (vs, ivs) → vs !! v = Some x → holds B mB x →
  ivs !! A = Some invA → A < B → declares invA mA v → conflict mA mB →
  status invA = Completed.
Proof.
  intros Hok Hv Hh HA Hlt Hd Hc.
  destruct (decide (status invA = Completed)) as [|Hnc]; [done|exfalso].
  destruct (ok_member _ _ Hok A invA mA v HA Hnc) as (x' & Hv' & Hp);
    [done..|].
  simpl in Hv'. assert (x' = x) as -> by congruence.
  pose proof (ok_shape _ _ Hok v x Hv) as Hx.
  destruct mB; simpl in Hh.
  - destruct Hc as [->|?]; [|done].
    destruct Hp as [[? _]|(e & He & Hre & Hme)]; [done|].
    pose proof (shape_readers _ Hx B e Hh He). lia.
  - pose proof (shape_occupancy _ Hx) as Ho. rewrite Hh in Ho.
    destruct Ho as (e0 & Hhd & Hre0 & _).
    destruct Hp as [[_ Hr]|(e & He & Hre & Hme)].
    + unfold readers in Hr. rewrite Hh in Hr. by apply elem_of_nil in Hr.
    + pose proof (head_least x e0 e Hx Hhd He). lia.
Qed.

(** An invocation handed to Worker Dispatch occupies every variable it
    declared. *)
Lemma started_holds vs ivs B invB m v :
  tables_ok None (vs, ivs) → ivs !! B = Some invB →
  status invB = Dispatched ∨ status invB = Running → declares invB m v →
  ∃ x, vs !! v = Some x ∧ holds B m x.
Proof.
  intros Hok HB Hs Hd.
  assert (Hnc : status invB ≠ Completed) by (destruct Hs; congruence).
  destruct (ok_member _ _ Hok B invB m v HB Hnc) as (x & Hv & Hp); [done..|].
  simpl in Hv. exists x. split; [done|].
  pose proof (ok_started _ _ Hok B invB HB Hs) as Hw.
  destruct Hp as [[-> Hr]|(e & He & Hre & Hme)]; [done|].
  destruct (pending_waiting_or_head x e (ok_shape _ _ Hok v x Hv) He)
    as [Hwt|(_ & Ho & Hm)].
  - by destruct (tables_ok_clean _ _ _ _ _ _ _ _ Hok HB Hw Hv Hwt).
  - rewrite <- Hme, Hm. simpl. by rewrite <- Hre.
Qed.

(** Starting an invocation and freeing a token keep the tables
    well-formed. *)
Lemma begin_tables_ok i inv vs ivs :
  tables_ok None (vs, ivs) → ivs !! i = Some inv → status inv = Dispatched →
  tables_ok None (vs, alter (with_status Running) i ivs).
Proof.
  intros Hok Hi Hs.
  assert (Hlive : ∀ j m v, live ivs j m v →
                           live (alter (with_status Running) i ivs) j m v).
  { intros j m v (invj & Hj & Hsj & Hdj).
    destruct (decide (j = i)) as [->|Hne].
    - exists (with_status Running invj).
      rewrite list_lookup_alter_eq, Hj. done.
    - exists invj. by rewrite list_lookup_alter_ne. }
  assert (Hback : ∀ j inv', alter (with_status Running) i ivs !! j = Some inv' →
    ivs !! j = Some inv' ∨
    (j = i ∧ inv' = with_status Running inv)).
  { intros j inv' Hj. destruct (decide (j = i)) as [->|Hne].
    - rewrite list_lookup_alter_eq, Hi in Hj. right. by simplify_eq/=.
    - rewrite list_lookup_alter_ne in Hj by done. by left. }
  split; simpl.
  - apply (ok_shape _ _ Hok).
  - intros v x e Hv He. apply Hlive. by eapply (ok_entry _ _ Hok).
  - intros v x r Hv Hr. apply Hlive. by eapply (ok_reader _ _ Hok).
  - intros j inv' m v Hj Hsj _ Hd. destruct (Hback _ _ Hj) as [Hj'|[-> ->]].
    + by eapply (ok_member _ _ Hok).
    + eapply (ok_member _ _ Hok i inv); try done. by rewrite Hs.
  - intros j inv' Hj. destruct (Hback _ _ Hj) as [Hj'|[-> ->]].
    + by apply (ok_count _ _ Hok j inv').
    + simpl. by apply (ok_count _ _ Hok i inv).
  - intros j inv' Hj Hsj. destruct (Hback _ _ Hj) as [Hj'|[-> ->]].
    + by eapply (ok_started _ _ Hok).
    + simpl. eapply (ok_started _ _ Hok); [done|by left].
  - intros j inv' Hj Hsj _. destruct (Hback _ _ Hj) as [Hj'|[-> ->]].
    + by eapply (ok_queued _ _ Hok).
    + done.
Qed.

Lemma owed_alter j (f : Var → Var) v vs :
  (∀ x, waiting (f x) = waiting x) → owed j (alter f v vs) = owed j vs.
Proof.
  intros Hf. unfold owed. revert v.
  induction vs as [|x vs IH]; intros [|v]; simpl; try done.
  - unfold owed_at. by rewrite Hf.
  - f_equal. apply IH.
Qed.

Lemma free_token_lookup v vs u y' :
  free_token v vs !! u = Some y' →
  ∃ y, vs !! u = Some y ∧ pending y' = pending y ∧
    occupancy y' = occupancy y ∧ (alive y' = alive y ∨ (u = v ∧ alive y' = false)).
Proof.
  unfold free_token. intros Hu. destruct (decide (u = v)) as [->|Hne].
  - rewrite list_lookup_alter_eq in Hu.
    destruct (vs !! v) as [y|]; simplify_eq/=. exists y.
    split_and!; try done. by right.
  - rewrite list_lookup_alter_ne in Hu by done. exists y'.
    split_and!; try done. by left.
Qed.

Lemma free_token_tables_ok ex v vs ivs :
  tables_ok ex (vs, ivs) → tables_ok ex (free_token v vs, ivs).
Proof.
  intros Hok.
  assert (Hsame : ∀ y y', pending y' = pending y → occupancy y' = occupancy y →
    readers y' = readers y ∧ waiting y' = waiting y ∧
    (var_shape y → var_shape y') ∧ ∀ i m, present i m y → present i m y').
  { intros y y' Hp Ho.
    assert (readers y' = readers y) as Hr by (unfold readers; by rewrite Ho).
    assert (waiting y' = waiting y) as Hw
      by (unfold waiting; by rewrite Ho, Hp).
    split_and!; try done.
    - intros [H1 H2 H3 H4]. split; rewrite ?Hp, ?Hr, ?Ho, ?Hw; try done.
    - unfold present. by rewrite Hp, Hr. }
  split; simpl.
  - intros u y' Hu. destruct (free_token_lookup _ _ _ _ Hu)
      as (y & Hy & Hp & Ho & _).
    apply (Hsame y y' Hp Ho). by eapply (ok_shape _ _ Hok).
  - intros u y' e Hu He. destruct (free_token_lookup _ _ _ _ Hu)
      as (y & Hy & Hp & Ho & _).
    rewrite Hp in He. by eapply (ok_entry _ _ Hok).
  - intros u y' r Hu Hr. destruct (free_token_lookup _ _ _ _ Hu)
      as (y & Hy & Hp & Ho & _).
    destruct (Hsame y y' Hp Ho) as (Hrd & _). rewrite Hrd in Hr.
    by eapply (ok_reader _ _ Hok).
  - intros i inv m u Hi Hs Hex Hd.
    destruct (ok_member _ _ Hok i inv m u Hi Hs Hex Hd) as (y & Hy & Hpr).
    simpl in Hy. unfold free_token.
    destruct (decide (u = v)) as [->|Hne].
    + eexists. rewrite list_lookup_alter_eq, Hy. split; [done|].
      by apply (Hsame y).
    + exists y. by rewrite list_lookup_alter_ne.
  - intros i inv Hi. rewrite (ok_count _ _ Hok i inv Hi). simpl.
    symmetry. by apply owed_alter.
  - apply (ok_started _ _ Hok).
  - apply (ok_queued _ _ Hok).
Qed.


(** Every transition keeps the tables well-formed *)

Lemma core_eq s s' vs ivs l :
  core s' = (vs, ivs, l) → vars s' = vs ∧ invs s' = ivs ∧ log s' = l.
Proof. unfold core. by intros [= -> -> ->]. Qed.

Lemma alloc_tables_ok vs ivs :
  tables_ok None (vs, ivs) →
  tables_ok None (vs ++ [mkVar 0 [] Free true], ivs).
Proof.
  intros Hok.
  assert (Hback : ∀ v x, (vs ++ [mkVar 0 [] Free true]) !! v = Some x →
    vs !! v = Some x ∨ x = mkVar 0 [] Free true).
  { intros v x Hv. apply lookup_app_Some in Hv as [Hv|[_ Hv]]; [by left|].
    apply list_lookup_singleton_Some in Hv as [_ <-]. by right. }
  split; simpl.
  - intros v x Hv. destruct (Hback _ _ Hv) as [Hv'| ->].
    + by eapply (ok_shape _ _ Hok).
    + apply var_shape_free.
  - intros v x e Hv He. destruct (Hback _ _ Hv) as [Hv'| ->].
    + by eapply (ok_entry _ _ Hok).
    + by apply elem_of_nil in He.
  - intros v x r Hv Hr. destruct (Hback _ _ Hv) as [Hv'| ->].
    + by eapply (ok_reader _ _ Hok).
    + by apply elem_of_nil in Hr.
  - intros i inv m v Hi Hs Hex Hd.
    destruct (ok_member _ _ Hok i inv m v Hi Hs Hex Hd) as (x & Hv & Hp).
    exists x. split; [|done]. by apply lookup_app_l_Some.
  - intros i inv Hi. rewrite owed_snoc.
    rewrite (ok_count _ _ Hok i inv Hi). simpl. unfold owed_at. simpl.
    unfold refund. simpl. lia.
  - apply (ok_started _ _ Hok).
  - apply (ok_queued _ _ Hok).
Qed.

Lemma evolves_moved j (bd : Body AsyncBody SyncBody) new (a c : Invocation) :
  evolves a c → (∀ ev, ev ∈ new → subject ev ≠ Some j) →
  moved j bd new (status a) (status c).
Proof.
  intros [_ [->|[-> ->]]] Hnew; [by apply m_same|by apply m_dispatch].
Qed.

Lemma decl_body_fits inv body ctx rs ws prop :
  decl inv = (body, ctx, rs, ws, prop) → body_fits body rs ws →
  body_fits (inv_body inv) (inv_reads inv) (inv_writes inv).
Proof. unfold decl. by intros [= -> _ -> -> _]. Qed.

Lemma transition_ok s s' :
  tables_ok None (vars s, invs s) → transition s s' →
  tables_ok None (vars s', invs s') ∧ summary s s'.
Proof.
  intros Hok Ht.
  assert (Hnone : ∀ j (inv' : Invocation),
            invs s !! j = Some inv' → length (invs s) ≤ j → False).
  { intros j inv' Hj Hge. apply lookup_lt_Some in Hj. lia. }
  destruct Ht as [Hc|Hc|body ctx rs ws prop s0 Hp Hfit Hc|i inv Hi Hs Hn1 Hn2 Hc|
                  i inv Hi Hs Hc|i Hnr Hc|i inv fn v Hi Hs Hb Hc|
                  i inv v Hi Hs Hb Hc|op Hc];
    unfold core in Hc; injection Hc as Hv Hinv Hl; rewrite Hv, Hinv.
  - split; [done|]. exists []. rewrite Hl, Hinv, Hv, app_nil_r.
    split_and!; try done.
    + intros j inv Hj. exists inv. split_and!; try done.
      apply m_same. intros ev Hev. by apply elem_of_nil in Hev.
    + intros j inv' Hj Hge. by destruct (Hnone j inv').
    + intros ev j Hev. by apply elem_of_nil in Hev.
    + intros v x' Hx Hal. left. eauto.
  - split; [by apply alloc_tables_ok|].
    exists []. rewrite Hl, Hinv, Hv, app_nil_r.
    split_and!; try done.
    + intros j inv Hj. exists inv. split_and!; try done.
      apply m_same. intros ev Hev. by apply elem_of_nil in Hev.
    + intros j inv' Hj Hge. by destruct (Hnone j inv').
    + intros ev j Hev. by apply elem_of_nil in Hev.
    + intros v x' Hx Hal. left.
      apply lookup_app_Some in Hx as [Hx|[_ Hx]]; [eauto|].
      apply list_lookup_singleton_Some in Hx as [_ <-]. done.
  - destruct (push_invocation_ok _ _ _ _ _ _ _ Hok Hp)
      as (Hok' & Hlv & Hal & Hli & Hold & (inv & Hnew & Hd & Hst) & _ & Hlog).
    split; [done|]. exists []. rewrite Hl, Hinv, Hv, Hlog, app_nil_r.
    split_and!; try done.
    + intros j invj Hj. exists invj. split_and!; try done; [by apply Hold|].
      apply m_same. intros ev Hev. by apply elem_of_nil in Hev.
    + intros j inv' Hj Hge.
      assert (j = length (invs s)) as ->.
      { apply lookup_lt_Some in Hj. lia. }
      assert (inv' = inv) as -> by congruence.
      split; [done|]. by eapply decl_body_fits.
    + intros ev j Hev. by apply elem_of_nil in Hev.
    + intros u x' Hx Hfalse. left. destruct (Hal _ _ Hx) as (y & Hy & Hay).
      exists y. split; [done|congruence].
  - simpl. split; [by eapply begin_tables_ok|].
    exists [EvBegin i]. rewrite Hl, Hinv, Hv. simpl.
    split_and!; try done.
    + intros j invj Hj. destruct (decide (j = i)) as [->|Hne].
      * exists (with_status Running invj).
        rewrite list_lookup_alter_eq, Hj. split_and!; try done.
        assert (invj = inv) as -> by congruence. simpl. rewrite Hs.
        by apply m_begin.
      * exists invj. rewrite list_lookup_alter_ne by done.
        split_and!; try done. apply m_same.
        intros ev ->%list_elem_of_singleton. simpl. congruence.
    + intros j inv' Hj Hge.
      destruct (decide (j = i)) as [->|Hne].
      * apply lookup_lt_Some in Hi. lia.
      * rewrite list_lookup_alter_ne in Hj by done. by destruct (Hnone j inv').
    + intros ev j ->%list_elem_of_singleton [= <-].
      by eapply lookup_lt_Some.
    + intros u x' Hx Hal. left. eauto.
  - destruct (finish_ok i inv s Hok Hi Hs)
      as (Hok' & Hlv & Hal & Hli & (inv' & Hi' & Hd' & Hs') & Hev & Hlog & _).
    split; [done|]. exists [EvComplete i]. rewrite Hl, Hinv, Hv.
    split_and!; try done.
    + intros j invj Hj. destruct (decide (j = i)) as [->|Hne].
      * exists inv'. assert (invj = inv) as -> by congruence.
        split_and!; try done. rewrite Hs, Hs'. by apply m_complete.
      * destruct (Hev j invj Hne Hj) as (invj' & Hj' & Hevj).
        exists invj'. split; [done|]. split; [apply Hevj|].
        apply evolves_moved; [done|].
        intros ev ->%list_elem_of_singleton. simpl. congruence.
    + intros j invj Hj Hge. exfalso.
      apply lookup_lt_Some in Hj. lia.
    + intros ev j ->%list_elem_of_singleton [= <-].
      by eapply lookup_lt_Some.
    + intros u x' Hx Hfalse. left. destruct (Hal _ _ Hx) as (y & Hy & Hay).
      exists y. split; [done|congruence].
  - split; [done|]. exists [EvRejected i]. rewrite Hl, Hinv, Hv.
    split_and!; try done.
    + intros j inv Hj. exists inv. split_and!; try done.
      apply m_same. intros ev ->%list_elem_of_singleton. done.
    + intros j inv' Hj Hge. by destruct (Hnone j inv').
    + intros ev j ->%list_elem_of_singleton. done.
    + intros u x' Hx Hal. left. eauto.
  - set (s1 := dispose i v (begin i s)) in *.
    assert (Hok1 : tables_ok None (vars s1, invs s1)).
    { simpl. apply free_token_tables_ok. by eapply begin_tables_ok. }
    assert (Hi1 : invs s1 !! i = Some (with_status Running inv)).
    { simpl. by rewrite list_lookup_alter_eq, Hi. }
    destruct (finish_ok i _ s1 Hok1 Hi1 eq_refl)
      as (Hok' & Hlv & Hal & Hli & (inv' & Hi' & Hd' & Hs') & Hev & Hlog & _).
    split; [done|]. exists [EvBegin i; EvDisposed i v; EvComplete i].
    rewrite Hl, Hinv, Hv, Hlog.
    split_and!.
    + simpl. by rewrite <- !app_assoc.
    + intros j invj Hj. destruct (decide (j = i)) as [->|Hne].
      * exists inv'. assert (invj = inv) as -> by congruence.
        split_and!; try done. rewrite Hs, Hs'. by eapply m_dispose.
      * destruct (Hev j invj Hne) as (invj' & Hj' & Hevj).
        { simpl. by rewrite list_lookup_alter_ne. }
        exists invj'. split; [done|]. split; [apply Hevj|].
        apply evolves_moved; [done|].
        intros ev Hin. list_cases Hin; simpl; congruence.
    + intros j invj Hj Hge. exfalso. apply lookup_lt_Some in Hj.
      rewrite Hli in Hj. simpl in Hj. rewrite length_alter in Hj. lia.
    + intros ev j Hin Hsub. apply lookup_lt_Some in Hi.
      assert (j = i) as ->; [|done].
      list_cases Hin; simpl in Hsub; congruence.
    + intros u x' Hx Hfalse. destruct (Hal _ _ Hx) as (y1 & Hy1 & Hay).
      simpl in Hy1. destruct (free_token_lookup _ _ _ _ Hy1)
        as (y & Hy & _ & _ & [Hsame|[-> _]]).
      * left. exists y. split; [done|congruence].
      * right. exists i. right. left.
  - set (s1 := begin i s) in *.
    assert (Hok1 : tables_ok None (vars s1, invs s1)).
    { simpl. by eapply begin_tables_ok. }
    assert (Hi1 : invs s1 !! i = Some (with_status Running inv)).
    { simpl. by rewrite list_lookup_alter_eq, Hi. }
    destruct (finish_ok i _ s1 Hok1 Hi1 eq_refl)
      as (Hok' & Hlv & Hal & Hli & (inv' & Hi' & Hd' & Hs') & Hev & Hlog & _).
    split; [done|]. exists [EvBegin i; EvComplete i; EvReleased i v].
    rewrite Hl, Hinv, Hv. simpl. rewrite Hlog.
    split_and!.
    + simpl. by rewrite <- !app_assoc.
    + intros j invj Hj. destruct (decide (j = i)) as [->|Hne].
      * exists inv'. assert (invj = inv) as -> by congruence.
        split_and!; try done. rewrite Hs, Hs'. by eapply m_release.
      * destruct (Hev j invj Hne) as (invj' & Hj' & Hevj).
        { simpl. by rewrite list_lookup_alter_ne. }
        exists invj'. split; [done|]. split; [apply Hevj|].
        apply evolves_moved; [done|].
        intros ev Hin. list_cases Hin; simpl; congruence.
    + intros j invj Hj Hge. exfalso. apply lookup_lt_Some in Hj.
      rewrite Hli in Hj. simpl in Hj. rewrite length_alter in Hj. lia.
    + intros ev j Hin Hsub. apply lookup_lt_Some in Hi.
      assert (j = i) as ->; [|done].
      list_cases Hin; simpl in Hsub; congruence.
    + intros u x' Hx Hfalse. destruct (Hal _ _ Hx) as (y & Hy & Hay).
      left. exists y. split; [done|congruence].
  - split; [done|]. exists [EvFreedOpr op]. rewrite Hl, Hinv, Hv.
    split_and!; try done.
    + intros j inv Hj. exists inv. split_and!; try done.
      apply m_same. intros ev ->%list_elem_of_singleton. done.
    + intros j inv' Hj Hge. by destruct (Hnone j inv').
    + intros ev j ->%list_elem_of_singleton. done.
    + intros u x' Hx Hal. left. eauto.
Qed.


(** The invariant of the engine *)

Lemma moved_completed j (bd : Body AsyncBody SyncBody) new st st' :
  moved j bd new st st' →
  (st = Completed → st' = Completed) ∧
  (st' = Completed → st ≠ Queued ∧ (st = Completed ∨ EvComplete j ∈ new)) ∧
  (∀ ev, status_after ev st → status_after ev st').
Proof.
  intros Hm. destruct Hm as [st Hn|Hn|_ _ Hn|Hn|fn v Hb Hn|v Hb Hn];
    (split; [done|split]); try done;
    try (intros ev; destruct ev; simpl; intros H; try done;
         by (destruct H as [?|?]; try done; auto));
    try (intros _; split; [done|right]; rewrite Hn; by repeat constructor).
  intros Hc. split; [by rewrite Hc|by left].
Qed.

(** What the events a transition logs about [j] say of the status [j]
    had. *)
Lemma occurrences_nil ev : occurrences ev [] = 0.
Proof. done. Qed.

Lemma moved_event j (bd : Body AsyncBody SyncBody) new st st' ev :
  moved j bd new st st' → ev ∈ new → subject ev = Some j →
  status_after ev st' ∧ ¬ status_after ev st ∧ occurrences ev new = 1 ∧
  (start_of ev = Some j → st = Dispatched) ∧
  (∀ v, ev = EvDisposed j v → ∃ fn, bd = Disposal fn v) ∧
  (∀ v, ev = EvReleased j v → bd = Waiter v).
Proof.
  intros Hm Hin Hsub.
  destruct Hm as [st Hn|Hn|_ _ Hn|Hn|fn v Hb Hn|v Hb Hn];
    try (exfalso; by eapply Hn); subst new; list_cases Hin;
    (split_and!;
     [ simpl; by auto
     | simpl; by intros [?|?] || by intros ?
     | rewrite !occurrences_cons, occurrences_nil;
       repeat case_decide; try done; try congruence
     | simpl; by intros ?
     | intros ? [= <-]; by eauto
     | intros ? [= <-]; by eauto ]).
Qed.

Lemma sched_ok_init : sched_ok (@init Context AsyncBody SyncBody).
Proof.
  split; simpl; intros; try done; try no_member.
  rewrite occurrences_nil. lia.
Qed.

Lemma sched_ok_step s s' : sched_ok s → transition s s' → sched_ok s'.
Proof.
  intros Hs Ht.
  destruct (transition_ok s s' (sk_tables _ Hs) Ht)
    as (Hok' & new & Hlog & Hold & Hnew & Hev & Halive).
  assert (Hcase : ∀ j inv', invs s' !! j = Some inv' →
    (∃ inv, invs s !! j = Some inv ∧ decl inv' = decl inv ∧
       moved j (inv_body inv) new (status inv) (status inv')) ∨
    (length (invs s) ≤ j ∧
     (status inv' = Queued ∨ status inv' = Dispatched) ∧
     body_fits (inv_body inv') (inv_reads inv') (inv_writes inv'))).
  { intros j inv' Hj. destruct (decide (j < length (invs s))) as [Hlt|Hge].
    - left. destruct (lookup_lt_is_Some_2 _ _ Hlt) as [inv Hinv].
      destruct (Hold _ _ Hinv) as (inv2 & Hj2 & Hd & Hm).
      exists inv. assert (inv2 = inv') as -> by congruence. done.
    - right. split; [lia|]. apply (Hnew j inv' Hj). lia. }
  assert (Hdecl : ∀ (a b : Invocation) m v,
            decl a = decl b → declares a m v → declares b m v).
  { intros a b m v Hd. by apply decl_declares. }
  assert (Hexists : ∀ ev j, ev ∈ log s' → subject ev = Some j →
            ∃ inv, invs s !! j = Some inv).
  { intros ev j Hin Hsub. rewrite Hlog in Hin.
    apply elem_of_app in Hin as [Hin|Hin].
    - destruct (sk_logged _ Hs ev j Hin Hsub) as (inv & Hj & _). eauto.
    - apply lookup_lt_is_Some_2. by eapply Hev. }
  split.
  - done.
  - intros j inv' Hj. destruct (Hcase _ _ Hj) as [(inv & Hinv & Hd & _)|(_ & _ & Hf)];
      [|done].
    pose proof (sk_bodies _ Hs j inv Hinv) as Hf.
    unfold decl in Hd. by injection Hd as -> _ -> -> _.
  - intros A B invA' invB' v mA mB HA HB Hlt HdA HdB Hc Hq.
    destruct (decide (status invB' = Completed)) as [Hcomp|Hncomp].
    + destruct (Hcase _ _ HB) as [(invB & HinvB & HdeclB & HmB)|(_ & [?|?] & _)];
        [|congruence..].
      destruct (moved_completed _ _ _ _ _ HmB) as (_ & Hback & _).
      destruct (Hback Hcomp) as [HnqB _].
      destruct (Hcase _ _ HA) as [(invA & HinvA & HdeclA & HmA)|(Hge & _)].
      * destruct (moved_completed _ _ _ _ _ HmA) as (Hfwd & _).
        apply Hfwd.
        eapply (sk_order _ Hs A B invA invB v mA mB); eauto.
      * apply lookup_lt_Some in HinvB. lia.
    + destruct (started_holds _ _ B invB' mB v Hok' HB) as (x & Hv & Hh);
        [|done|].
      { destruct (status invB'); auto; done. }
      by eapply (holder_excludes _ _ v x A B invA' mA mB Hok').
  - intros j inv' Hj Hcomp. rewrite Hlog. apply elem_of_app.
    destruct (Hcase _ _ Hj) as [(inv & Hinv & Hd & Hm)|(_ & [?|?] & _)];
      [|congruence..].
    destruct (moved_completed _ _ _ _ _ Hm) as (_ & Hback & _).
    destruct (Hback Hcomp) as [_ [Hold'|Hnew']]; [left|by right].
    by eapply (sk_completed _ Hs).
  - intros ev j Hin Hsub.
    destruct (Hexists ev j Hin Hsub) as [inv Hinv].
    destruct (Hold _ _ Hinv) as (inv' & Hj' & Hd & Hm).
    exists inv'. split; [done|].
    rewrite Hlog in Hin. apply elem_of_app in Hin as [Hin|Hin].
    + destruct (sk_logged _ Hs ev j Hin Hsub) as (inv0 & Hj0 & Hafter).
      assert (inv0 = inv) as -> by congruence.
      destruct (moved_completed _ _ _ _ _ Hm) as (_ & _ & Hup). by apply Hup.
    + by destruct (moved_event _ _ _ _ _ ev Hm Hin Hsub) as (? & _).
  - intros ev j Hsub. rewrite Hlog, occurrences_app.
    pose proof (sk_once _ Hs ev j Hsub) as Hone.
    destruct (decide (ev ∈ new)) as [Hin|Hnin];
      [|rewrite (occurrences_absent ev new Hnin); lia].
    assert (∃ inv, invs s !! j = Some inv) as [inv Hinv].
    { apply lookup_lt_is_Some_2. by eapply Hev. }
    destruct (Hold _ _ Hinv) as (inv' & Hj' & Hd & Hm).
    destruct (moved_event _ _ _ _ _ ev Hm Hin Hsub) as (_ & Hnot & -> & _).
    rewrite occurrences_absent; [lia|].
    intros Hin0. destruct (sk_logged _ Hs ev j Hin0 Hsub) as (inv0 & Hj0 & Haft).
    assert (inv0 = inv) as -> by congruence. done.
  - intros j v inv' Hj.
    assert (Hgen : ∀ ev, subject ev = Some j → ev ∈ log s' →
      ∃ inv, invs s !! j = Some inv ∧ inv_body inv' = inv_body inv ∧
        (ev ∈ log s ∨
         (ev ∈ new ∧ moved j (inv_body inv) new (status inv) (status inv')))).
    { intros ev Hsub Hin. destruct (Hexists ev j Hin Hsub) as [inv Hinv].
      destruct (Hold _ _ Hinv) as (inv2 & Hj2 & Hd & Hm).
      assert (inv2 = inv') as -> by congruence.
      exists inv. split; [done|]. split.
      { unfold decl in Hd. by injection Hd as -> _ _ _ _. }
      rewrite Hlog in Hin. apply elem_of_app in Hin as [Hin|Hin]; auto. }
    split; intros Hin.
    + destruct (Hgen (EvDisposed j v) eq_refl Hin)
        as (inv & Hinv & -> & [Hin0|[Hin1 Hm]]).
      * by apply (sk_kind _ Hs j v inv Hinv).
      * destruct (moved_event _ _ _ _ _ (EvDisposed j v) Hm Hin1 eq_refl)
          as (_ & _ & _ & _ & Hdis & _). by apply Hdis.
    + destruct (Hgen (EvReleased j v) eq_refl Hin)
        as (inv & Hinv & -> & [Hin0|[Hin1 Hm]]).
      * by apply (sk_kind _ Hs j v inv Hinv).
      * destruct (moved_event _ _ _ _ _ (EvReleased j v) Hm Hin1 eq_refl)
          as (_ & _ & _ & _ & _ & Hrel). by apply Hrel.
  - intros j inv' Hj Hrun.
    destruct (Hcase _ _ Hj) as [(inv & Hinv & Hd & Hm)|(_ & [?|?] & _)];
      [|congruence..].
    assert (inv_body inv' = inv_body inv) as ->.
    { unfold decl in Hd. by injection Hd as -> _ _ _ _. }
    inversion Hm as [st Hn Hst1 Hst2|Hn|Hnd Hnw Hn|Hn|fn v Hb Hn|v Hb Hn];
      try congruence.
    + apply (sk_pseudo _ Hs j inv Hinv). congruence.
    + done.
  - intros j v inv' Hj Hcomp.
    destruct (Hcase _ _ Hj) as [(inv & Hinv & Hd & Hm)|(_ & [?|?] & _)];
      [|congruence..].
    assert (inv_body inv' = inv_body inv) as ->.
    { unfold decl in Hd. by injection Hd as -> _ _ _ _. }
    rewrite Hlog.
    inversion Hm as [st Hn Hst1 Hst2|Hn|Hnd Hnw Hn|Hn Hst1 Hst2|
                     fn v0 Hb Hn|v0 Hb Hn];
      try congruence.
    + destruct (sk_done _ Hs j v inv Hinv) as [H1 H2]; [congruence|].
      split; intros H; apply elem_of_app; left; auto.
    + destruct (sk_pseudo _ Hs j inv Hinv) as [H1 H2]; [done|].
      split; [intros [fn Hb]; by destruct (H1 fn v)|intros Hb; by destruct (H2 v)].
    + split.
      * intros [fn' Hb']. rewrite Hb in Hb'. injection Hb' as _ ->.
        apply elem_of_app. right. rewrite Hn. right. left.
      * intros Hb'. congruence.
    + split.
      * intros [fn' Hb']. congruence.
      * intros Hb'. rewrite Hb in Hb'. injection Hb' as ->.
        apply elem_of_app. right. rewrite Hn. right. right. left.
  - intros ev A B invA' invB' v mA mB HA HB Hlt HdA HdB Hc Hst.
    pose proof (start_of_subject _ _ Hst) as Hsub.
    rewrite Hlog.
    destruct (Hcase _ _ HB) as [(invB & HinvB & HdeclB & HmB)|(Hge & _)].
    + destruct (Hcase _ _ HA) as [(invA & HinvA & HdeclA & HmA)|(Hge & _)];
        [|apply lookup_lt_Some in HinvB; lia].
      apply precedes_app.
      * eapply (sk_precedes _ Hs ev A B invA invB v mA mB); eauto.
      * intros Hin.
        destruct (moved_event _ _ _ _ _ ev HmB Hin Hsub)
          as (_ & _ & _ & Hdisp & _).
        eapply (sk_completed _ Hs A invA HinvA).
        eapply (sk_order _ Hs A B invA invB v mA mB); eauto.
        rewrite (Hdisp Hst). done.
    + apply precedes_absent. intros Hin.
      assert (ev ∈ log s') as Hin' by by rewrite Hlog.
      destruct (Hexists ev B Hin' Hsub) as [inv Hinv].
      apply lookup_lt_Some in Hinv. lia.
  - intros v x' Hv Hfalse. rewrite Hlog.
    destruct (Halive v x' Hv Hfalse) as [(x & Hx & Hxf)|(d & Hd)].
    + destruct (sk_alive _ Hs v x Hx Hxf) as (d & Hd).
      exists d. apply elem_of_app. by left.
    + exists d. apply elem_of_app. by right.
Qed.

Lemma reachable_ok s : reachable s → sched_ok s.
Proof.
  induction 1 as [|s s' _ IH Ht]; [apply sched_ok_init|by eapply sched_ok_step].
Qed.

Lemma foldl_step_reachable (h : list (Action Context AsyncBody SyncBody)) s :
  reachable s → reachable (foldl step s h).
Proof.
  revert s. induction h as [|a h IH]; intros s Hs; [done|].
  simpl. apply IH. eapply r_step; [done|apply step_transition].
Qed.

Lemma run_reachable (h : list (Action Context AsyncBody SyncBody)) :
  reachable (run h).
Proof. apply foldl_step_reachable, r_init. Qed.

Lemma run_ok (h : list (Action Context AsyncBody SyncBody)) : sched_ok (run h).
Proof. apply reachable_ok, run_reachable. Qed.

End TableFacts.

(** Multiplicities *)






Section Multiplicity.
Context {Context AsyncBody SyncBody : Type}.
Local Abbreviation Invocation := (Invocation Context AsyncBody SyncBody).
Local Abbreviation Tables := (Tables Context AsyncBody SyncBody).
Local Abbreviation Sched := (Sched Context AsyncBody SyncBody).
Implicit Types (ivs : list Invocation) (inv : Invocation) (vs : list Var).
Implicit Types (t : Tables) (s : Sched) (x : Var) (e : Entry).

















(** Progress of an invocation that writes one variable *)




End Multiplicity.

(** The operator registry *)

Section Operators.
Context {Context AsyncBody SyncBody : Type}.
Local Abbreviation Invocation := (Invocation Context AsyncBody SyncBody).
Local Abbreviation Sched := (Sched Context AsyncBody SyncBody).
Local Abbreviation Opr := (Opr AsyncBody).
Implicit Types (ivs : list Invocation) (inv : Invocation) (s : Sched).
Implicit Types (d : Opr) (os : list (option Opr)).

Lemma uses_evolves op (a b : Invocation) :
  evolves a b → uses op b = uses op a.
Proof.
  intros [Hd Hs]. unfold uses, inv_origin.
  assert (Hb : inv_body b = inv_body a) by (unfold decl in Hd; congruence).
  rewrite Hb.
  assert (Hc : status b ≠ Completed ↔ status a ≠ Completed).
  { destruct Hs as [->|[-> ->]]; [done|]. split; done. }
  repeat case_decide; try done; exfalso; (intuition congruence).
Qed.

Lemma uses_completed op inv : status inv = Completed → uses op inv = 0.
Proof. intros Hs. unfold uses. case_decide; [(intuition congruence)|done]. Qed.

Lemma uses_foreign op inv : inv_origin inv ≠ Some op → uses op inv = 0.
Proof. intros Hs. unfold uses. case_decide; [(intuition congruence)|done]. Qed.

Lemma uses_own op inv :
  inv_origin inv = Some op → status inv ≠ Completed → uses op inv = 1.
Proof. intros Ho Hs. unfold uses. case_decide; [done|naive_solver]. Qed.

Lemma outstanding_snoc op ivs inv :
  outstanding op (ivs ++ [inv]) = outstanding op ivs + uses op inv.
Proof.
  unfold outstanding. rewrite sum_list_with_app. simpl. lia.
Qed.

Lemma outstanding_change op ivs ivs' i (a b : Invocation) :
  length ivs' = length ivs →
  ivs !! i = Some a → ivs' !! i = Some b →
  (∀ j c, j ≠ i → ivs !! j = Some c →
     ∃ c', ivs' !! j = Some c' ∧ uses op c' = uses op c) →
  outstanding op ivs' + uses op a = outstanding op ivs + uses op b.
Proof.
  revert ivs' i. induction ivs as [|k ivs IH]; intros ivs' i Hlen Ha Hb Hrest;
    [done|].
  destruct ivs' as [|k' ivs']; [done|]. simpl in Hlen.
  destruct i as [|i]; simpl in Ha, Hb.
  - injection Ha as ->. injection Hb as ->.
    assert (Heq : outstanding op ivs' = outstanding op ivs).
    { clear IH. revert ivs' Hlen Hrest. induction ivs as [|c ivs IH];
        intros [|c' ivs'] Hlen Hrest; try done.
      unfold outstanding. simpl.
      destruct (Hrest 1 c) as (c0 & Hc0 & Hu); [lia|reflexivity|].
      simpl in Hc0. injection Hc0 as <-. rewrite Hu. f_equal.
      apply IH; [simpl in Hlen; lia|].
      intros [|j] c1 Hne Hj; [done|]. simpl in Hj.
      destruct (Hrest (S (S j)) c1) as (c2 & Hc2 & Hu2); [lia|exact Hj|].
      exists c2. done. }
    unfold outstanding in *. simpl. lia.
  - destruct (Hrest 0 k) as (c0 & Hc0 & Hu); [lia|reflexivity|].
    simpl in Hc0. injection Hc0 as <-.
    assert (IH' := IH ivs' i ltac:(lia) Ha Hb).
    unfold outstanding in *. simpl. rewrite Hu.
    enough (sum_list_with (uses op) ivs' + uses op a =
            sum_list_with (uses op) ivs + uses op b) by lia.
    apply IH'. intros j c Hne Hj.
    destruct (Hrest (S j) c) as (c' & Hc' & Hu'); [lia|done|].
    by exists c'.
Qed.

Lemma outstanding_zero op ivs :
  outstanding op ivs = 0 ↔
  ∀ i inv, ivs !! i = Some inv → inv_origin inv = Some op →
           status inv = Completed.
Proof.
  unfold outstanding. induction ivs as [|a ivs IH]; simpl.
  - split; [|done]. by intros _ i inv Hi.
  - split.
    + intros Hz [|i] inv Hi Ho; simpl in Hi.
      * injection Hi as ->. destruct (decide (status inv = Completed)); [done|].
        rewrite (uses_own op inv) in Hz by done. lia.
      * apply (proj1 IH ltac:(lia) i inv Hi Ho).
    + intros Hall.
      assert (Ha : uses op a = 0).
      { unfold uses. case_decide as Hc; [|done]. destruct Hc as [Ho Hs].
        destruct Hs. by apply (Hall 0 a). }
      rewrite Ha. simpl. apply IH. intros i inv Hi. by apply (Hall (S i)).
Qed.

Lemma begin_outstanding op i inv ivs :
  ivs !! i = Some inv → status inv ≠ Completed →
  outstanding op (alter (with_status Running) i ivs) = outstanding op ivs.
Proof.
  intros Hi Hc.
  assert (H := outstanding_change op ivs
                 (alter (with_status Running) i ivs) i inv
                 (with_status Running inv)).
  assert (Hu : uses op (with_status Running inv) = uses op inv).
  { unfold uses, inv_origin. simpl.
    repeat case_decide; try done; exfalso; (intuition congruence). }
  rewrite Hu in H.
  enough (outstanding op (alter (with_status Running) i ivs) + uses op inv =
          outstanding op ivs + uses op inv) by lia.
  apply H.
  - by rewrite length_alter.
  - done.
  - by rewrite list_lookup_alter_eq, Hi.
  - intros j c Hne Hj. exists c. by rewrite list_lookup_alter_ne.
Qed.

Lemma finish_outstanding op i inv s :
  tables_ok None (vars s, invs s) →
  invs s !! i = Some inv → status inv = Running →
  outstanding op (invs (finish i s)) + uses op inv =
  outstanding op (invs s).
Proof.
  intros Hok Hi Hs.
  destruct (finish_ok i inv s Hok Hi Hs)
    as (_ & _ & _ & Hlen & (inv' & Hi' & Hd & Hs') & Hrest & _).
  assert (H := outstanding_change op (invs s) (invs (finish i s)) i inv inv'
                 Hlen Hi Hi').
  rewrite (uses_completed op inv' Hs') in H. rewrite H; [lia|].
  intros j c Hne Hj. destruct (Hrest j c Hne Hj) as (c' & Hc' & He).
  exists c'. split; [done|]. by apply uses_evolves.
Qed.

Lemma opr_done_lookup (o : option OprHandle) os op :
  opr_done o os !! op =
  if decide (o = Some op)
  then fmap (λ d, with_count (opr_count d - 1) d) <$> os !! op
  else os !! op.
Proof.
  unfold opr_done. destruct o as [op'|].
  - case_decide as Hd.
    + injection Hd as ->. by rewrite list_lookup_alter_eq.
    + rewrite list_lookup_alter_ne; [done|]. congruence.
  - by case_decide.
Qed.

Lemma finish_oprs_ok i inv s :
  tables_ok None (vars s, invs s) →
  invs s !! i = Some inv → status inv = Running →
  oprs_ok s → oprs_ok (finish i s).
Proof.
  intros Hok Hi Hs Hops op.
  assert (Hout := finish_outstanding op i inv s Hok Hi Hs).
  destruct (finish_ok i inv s Hok Hi Hs) as (_ & _ & _ & _ & _ & _ & _ & ->).
  rewrite opr_done_lookup. specialize (Hops op).
  case_decide as Hd.
  - rewrite (uses_own op inv) in Hout by (done || by rewrite Hs).
    destruct (oprs s !! op) as [[d|]|]; simpl in *; lia.
  - rewrite (uses_foreign op inv) in Hout by done.
    destruct (oprs s !! op) as [[d|]|]; simpl in *; lia.
Qed.

Lemma emit_oprs_ok ev s : oprs_ok s → oprs_ok (emit ev s).
Proof. done. Qed.

Lemma push_invocation_outstanding op body ctx rs ws prop s s' :
  tables_ok None (vars s, invs s) →
  push_invocation body ctx rs ws prop s = Some s' →
  oprs s' = oprs s ∧
  outstanding op (invs s') =
  outstanding op (invs s) +
  (if decide (match body with Registered o => Some o | _ => None end
              = Some op) then 1 else 0).
Proof.
  intros Hok Hp.
  destruct (push_invocation_ok _ _ _ _ _ _ _ Hok Hp)
    as (_ & _ & _ & Hlen & Hold & (inv & Hi & Hd & Hs) & Ho & _).
  split; [done|].
  assert (Heq : invs s' = invs s ++ [inv]).
  { apply list_eq. intros j.
    destruct (decide (j < length (invs s))) as [Hlt|Hge].
    - destruct (lookup_lt_is_Some_2 _ _ Hlt) as [c Hc].
      rewrite (Hold _ _ Hc). by rewrite lookup_app_l, Hc.
    - destruct (decide (j = length (invs s))) as [->|Hne].
      + by rewrite Hi, lookup_app_r, Nat.sub_diag.
      + rewrite !lookup_ge_None_2; [done| |].
        * rewrite length_app. simpl. lia.
        * lia. }
  rewrite Heq, outstanding_snoc. f_equal.
  assert (Hb : inv_body inv = body) by (unfold decl in Hd; congruence).
  unfold uses, inv_origin. rewrite Hb.
  assert (Hq : status inv ≠ Completed) by (by destruct Hs as [->| ->]).
  repeat case_decide; try done; exfalso; (intuition congruence).
Qed.

Lemma step_oprs_ok s (a : Action Context AsyncBody SyncBody) :
  sched_ok s → oprs_ok s → oprs_ok (step s a).
Proof.
  intros Hsk Hops. pose proof (sk_tables _ Hsk) as Hok.
  destruct a as [|fn rs ws prop|op|op ctx|fn ctx cv mv prop|fn ctx v|v|i|i|op];
    simpl.
  - done.
  - unfold Register. destruct (overlap rs ws); [done|]. simpl.
    intros op. specialize (Hops op). simpl.
    destruct (decide (op < length (oprs s))) as [Hlt|Hge].
    + by rewrite lookup_app_l.
    + rewrite lookup_ge_None_2 in Hops by lia.
      destruct (decide (op = length (oprs s))) as [->|Hne].
      * rewrite lookup_app_r, Nat.sub_diag by lia. simpl. lia.
      * rewrite lookup_ge_None_2; [done|]. rewrite length_app. simpl. lia.
  - intros op'. specialize (Hops op'). simpl.
    destruct (decide (op' = op)) as [->|Hne].
    + rewrite list_lookup_alter_eq.
      by destruct (oprs s !! op) as [[d|]|].
    + by rewrite list_lookup_alter_ne.
  - unfold Push. destruct (oprs s !! op) as [[d|]|] eqn:Hop; try done.
    destruct (opr_marked d); [done|].
    destruct (push_invocation _ _ _ _ _ s) as [s0|] eqn:Hp; [|done].
    intros op'. simpl.
    destruct (push_invocation_outstanding op' _ _ _ _ _ _ _ Hok Hp)
      as [Ho ->].
    rewrite Ho. specialize (Hops op').
    destruct (decide (op' = op)) as [->|Hne].
    + rewrite list_lookup_alter_eq, Hop. rewrite Hop in Hops. simpl.
      rewrite decide_True by done. lia.
    + rewrite list_lookup_alter_ne by done.
      rewrite decide_False by congruence.
      destruct (oprs s !! op') as [[d'|]|]; lia.
  - unfold PushAsync.
    destruct (push_invocation _ _ _ _ _ s) as [s0|] eqn:Hp; [|done].
    intros op'. simpl.
    destruct (push_invocation_outstanding op' _ _ _ _ _ _ _ Hok Hp)
      as [-> ->].
    rewrite decide_False by done. specialize (Hops op').
    destruct (oprs s !! op') as [[d'|]|]; lia.
  - unfold ScheduleDeletion.
    destruct (push_invocation _ _ _ _ _ s) as [s0|] eqn:Hp; [|done].
    intros op'. simpl.
    destruct (push_invocation_outstanding op' _ _ _ _ _ _ _ Hok Hp)
      as [-> ->].
    rewrite decide_False by done. specialize (Hops op').
    destruct (oprs s !! op') as [[d'|]|]; lia.
  - unfold WaitForVar.
    destruct (push_invocation _ _ _ _ _ s) as [s0|] eqn:Hp; [|done].
    intros op'. simpl.
    destruct (push_invocation_outstanding op' _ _ _ _ _ _ _ Hok Hp)
      as [-> ->].
    rewrite decide_False by done. specialize (Hops op').
    destruct (oprs s !! op') as [[d'|]|]; lia.
  - pose proof (step_transition s (DoWorkerRun i)) as Ht.
    pose proof (transition_ok _ _ Hok Ht) as [Hok' _]. simpl in Ht, Hok'.
    unfold WorkerRun in *.
    destruct (invs s !! i) as [inv|] eqn:Hi; [|done].
    destruct (status inv) eqn:Hs; try done.
    assert (Hb : oprs_ok (begin i s)).
    { intros op. simpl. rewrite (begin_outstanding op i inv) by
        (done || by rewrite Hs). apply Hops. }
    assert (Hbi : invs (begin i s) !! i = Some (with_status Running inv)).
    { simpl. by rewrite list_lookup_alter_eq, Hi. }
    assert (Hbok : tables_ok None (vars (begin i s), invs (begin i s))).
    { pose proof (step_transition s (DoWorkerRun i)) as Ht'.
      simpl in Ht'. unfold WorkerRun in Ht'. rewrite Hi, Hs in Ht'.
      by eapply begin_tables_ok. }
    destruct (inv_body inv) as [fn|op|fn v|v] eqn:Hbd; try done.
    + apply (finish_oprs_ok i (with_status Running inv)); try done.
      simpl. by apply free_token_tables_ok.
    + apply emit_oprs_ok. by eapply finish_oprs_ok.
  - unfold OnComplete. destruct (invs s !! i) as [inv|] eqn:Hi; simpl; [|done].
    destruct (status inv) eqn:Hs; try done. by eapply finish_oprs_ok.
  - unfold Reclaim. destruct (oprs s !! op) as [[d|]|] eqn:Hop; try done.
    destruct (opr_marked d && bool_decide (opr_count d = 0)) eqn:Hm; [|done].
    apply andb_true_iff in Hm as [_ Hz]. apply bool_decide_eq_true in Hz.
    intros op'. simpl. specialize (Hops op').
    destruct (decide (op' = op)) as [->|Hne].
    + rewrite list_lookup_insert_eq by (by eapply lookup_lt_Some).
      rewrite Hop in Hops. lia.
    + by rewrite list_lookup_insert_ne.
Qed.

Lemma run_snoc (h : list (Action Context AsyncBody SyncBody)) a :
  run (h ++ [a]) = step (run h) a.
Proof. unfold run. by rewrite foldl_app. Qed.

Lemma run_oprs_ok (h : list (Action Context AsyncBody SyncBody)) :
  oprs_ok (run h).
Proof.
  induction h as [|a h IH] using rev_ind; [by intros [|op]|].
  rewrite run_snoc. apply step_oprs_ok; [apply run_ok|done].
Qed.

Lemma MarkDeleted_idempotent op s :
  MarkDeleted op (MarkDeleted op s) = MarkDeleted op s.
Proof.
  unfold MarkDeleted. simpl. f_equal.
  apply list_eq. intros j. destruct (decide (j = op)) as [->|Hne].
  - rewrite !list_lookup_alter_eq. by destruct (oprs s !! op) as [[d|]|].
  - by rewrite !list_lookup_alter_ne.
Qed.

Lemma MarkDeleted_retains op s d :
  oprs s !! op = Some (Some d) →
  oprs (MarkDeleted op s) !! op = Some (Some (with_mark d)).
Proof. intros Hop. simpl. by rewrite list_lookup_alter_eq, Hop. Qed.

Lemma finish_retains i s op d :
  oprs s !! op = Some (Some d) →
  ∃ d', oprs (finish i s) !! op = Some (Some d').
Proof.
  intros Hop. unfold finish. destruct (invs s !! i) as [inv|]; [|eauto].
  simpl. rewrite opr_done_lookup, Hop. case_decide; simpl; eauto.
Qed.

(** Only the Deletion Manager frees a descriptor. *)
Lemma step_frees s (a : Action Context AsyncBody SyncBody) op d :
  oprs s !! op = Some (Some d) → oprs (step s a) !! op = Some None →
  a = DoReclaim op ∧ opr_marked d = true ∧ opr_count d = 0.
Proof.
  intros Hop Hfree.
  assert (Hpush : ∀ body ctx rs ws prop,
            oprs (default s (push_invocation body ctx rs ws prop s)) !! op
            = Some (Some d)).
  { intros. unfold push_invocation.
    destruct (forallb _ _); [|done]. done. }
  destruct a as [|fn rs ws prop|op'|op' ctx|fn ctx cv mv prop|fn ctx v|v|i|i|op'];
    simpl in Hfree.
  - congruence.
  - unfold Register in Hfree. destruct (overlap rs ws); simpl in Hfree;
      [congruence|].
    rewrite lookup_app_l in Hfree by (by eapply lookup_lt_Some). congruence.
  - destruct (decide (op = op')) as [->|Hne].
    + rewrite list_lookup_alter_eq, Hop in Hfree. done.
    + rewrite list_lookup_alter_ne in Hfree by done. congruence.
  - unfold Push in Hfree.
    destruct (oprs s !! op') as [[d'|]|] eqn:Hop'; try congruence.
    destruct (opr_marked d'); [congruence|].
    unfold push_invocation in Hfree.
    destruct (forallb _ _); [|congruence]. simpl in Hfree.
    destruct (decide (op = op')) as [->|Hne].
    + rewrite list_lookup_alter_eq, Hop in Hfree. done.
    + rewrite list_lookup_alter_ne in Hfree by done. congruence.
  - unfold PushAsync in Hfree. rewrite Hpush in Hfree. done.
  - unfold ScheduleDeletion in Hfree. rewrite Hpush in Hfree. done.
  - unfold WaitForVar in Hfree. rewrite Hpush in Hfree. done.
  - unfold WorkerRun in Hfree.
    destruct (invs s !! i) as [inv|]; [|congruence].
    destruct (status inv); try congruence.
    destruct (inv_body inv) as [fn|o|fn v|v]; simpl in Hfree; try congruence.
    + destruct (finish_retains i (dispose i v (begin i s)) op d Hop)
        as [d' Hd']. congruence.
    + destruct (finish_retains i (begin i s) op d Hop) as [d' Hd'].
      congruence.
  - unfold OnComplete in Hfree.
    destruct (status <$> invs s !! i) as [[]|]; simpl in Hfree;
      try congruence.
    destruct (finish_retains i s op d Hop) as [d' Hd']. congruence.
  - unfold Reclaim in Hfree.
    destruct (oprs s !! op') as [[d'|]|] eqn:Hop'; try congruence.
    destruct (opr_marked d' && bool_decide (opr_count d' = 0)) eqn:Hm;
      [|congruence].
    simpl in Hfree. destruct (decide (op = op')) as [->|Hne].
    + apply andb_true_iff in Hm as [Hm Hz]. apply bool_decide_eq_true in Hz.
      split; [done|]. split; congruence.
    + rewrite list_lookup_insert_ne in Hfree by done. congruence.
Qed.

End Operators.

(** * What the engine guarantees *)

Section Guarantees.
Context {Context AsyncBody SyncBody : Type}.
Local Abbreviation Invocation := (Invocation Context AsyncBody SyncBody).
Local Abbreviation Tables := (Tables Context AsyncBody SyncBody).
Local Abbreviation Sched := (Sched Context AsyncBody SyncBody).
Local Abbreviation Action := (Action Context AsyncBody SyncBody).
Implicit Types (h : list Action) (s : Sched) (t : Tables).
Implicit Types (inv invA invB : Invocation).

Lemma release_write_length bump i t v :
  length (release_write bump i t v).2 = length t.2.
Proof.
  unfold release_write. destruct (t.1 !! v) as [x|]; [|done].
  destruct (occupancy x); try done. destruct (pending x); [done|].
  case_decide; [|done]. destruct (hand_over _ _ _) as [x' run]. simpl.
  apply promote_all_evolve.
Qed.

Lemma release_read_length i t v :
  length (release_read i t v).2 = length t.2.
Proof.
  unfold release_read. destruct (t.1 !! v) as [x|]; [|done].
  destruct (occupancy x); try done. case_decide; [|done].
  destruct (filter _ _); [|done].
  destruct (pending x) as [|e q]; [done|].
  destruct (mode e); [done|]. simpl. apply promote_evolve.
Qed.

Lemma release_all_length bump i t ws rs :
  length (foldl (release_read i) (foldl (release_write bump i) t ws) rs).2 =
  length t.2.
Proof.
  transitivity (length (foldl (release_write bump i) t ws).2).
  - generalize (foldl (release_write bump i) t ws). intros t'. revert t'.
    induction rs as [|v rs IH]; intros t'; [done|]. simpl.
    by rewrite IH, release_read_length.
  - revert t. induction ws as [|v ws IH]; intros t; [done|]. simpl.
    by rewrite IH, release_write_length.
Qed.

Lemma finish_completes i s inv :
  invs s !! i = Some inv →
  ∃ inv', invs (finish i s) !! i = Some inv' ∧ status inv' = Completed.
Proof.
  intros Hi. unfold finish. rewrite Hi. simpl.
  set (t := foldl _ _ _).
  destruct (lookup_lt_is_Some_2 t.2 i) as [inv' Hi'].
  { unfold t. rewrite release_all_length. simpl. by eapply lookup_lt_Some. }
  exists (with_status Completed inv').
  by rewrite list_lookup_alter_eq, Hi'.
Qed.

Lemma OnComplete_not_running i s :
  status <$> invs (OnComplete i s) !! i ≠ Some Running.
Proof.
  unfold OnComplete. destruct (invs s !! i) as [inv|] eqn:Hi; simpl.
  - destruct (status inv) eqn:Hs; simpl; rewrite ?Hi; simpl;
      rewrite ?Hs; try done.
    destruct (finish_completes i s inv Hi) as (inv' & -> & Hs'). simpl.
    by rewrite Hs'.
  - by rewrite Hi.
Qed.

Lemma OnComplete_rejects i s :
  status <$> invs s !! i ≠ Some Running →
  OnComplete i s = emit (EvRejected i) s.
Proof.
  intros Hn. unfold OnComplete.
  by destruct (status <$> invs s !! i) as [[]|].
Qed.






(** C1: per-variable serializability.  In every state a history leads
    to, for invocations [A] and [B] with [A] submitted before [B] that
    both declare variable [v] in conflicting modes (at least one of the
    two writes): an access of [B] on [v] is granted only if [A] has
    completed; [B] is handed to the workers only if [A] has completed;
    and wherever [B] begins execution in the log, the completion of [A]
    was logged before. *)
Theorem per_variable_serializability h A B invA invB v mA mB :
  invs (run h) !! A = Some invA → invs (run h) !! B = Some invB →
  A < B → declares invA mA v → declares invB mB v → conflict mA mB →
  (granted (run h) B mB v → status invA = Completed) ∧
  (status invB ≠ Queued → status invA = Completed) ∧
  precedes (EvComplete A) (EvBegin B) (log (run h)).
Proof.
  intros HA HB Hlt HdA HdB Hc. pose proof (run_ok h) as Hok.
  split_and!.
  - intros (x & Hv & Hh).
    by eapply (holder_excludes (vars (run h)) (invs (run h)) v x A B invA
                 mA mB (sk_tables _ Hok)).
  - by eapply (sk_order _ Hok A B invA invB v mA mB).
  - by eapply (sk_precedes _ Hok (EvBegin B) A B invA invB v mA mB).
Qed.

(** C4: a second invocation of the completion handle of an invocation
    is rejected: whatever the state, the second of two calls of the
    handle only logs the rejection and leaves every table as the first
    call left it; in every history the completion of an invocation is
    logged at most once, and a call of the handle of a completed
    invocation is rejected. *)
Theorem second_completion_rejected h (this : EnginePtr) (i : nat) :
  let on_complete := completion_handle this i in
  (∀ s, exec (call on_complete) (exec (call on_complete) s) =
        emit (EvRejected i) (exec (call on_complete) s)) ∧
  occurrences (EvComplete i) (log (run h)) ≤ 1 ∧
  (∀ inv, invs (run h) !! i = Some inv → status inv = Completed →
     exec (call on_complete) (run h) = emit (EvRejected i) (run h)).
Proof.
  simpl. split_and!.
  - intros s. change (OnComplete i (OnComplete i s) =
                      emit (EvRejected i) (OnComplete i s)).
    apply OnComplete_rejects, OnComplete_not_running.
  - by apply (sk_once _ (run_ok h) (EvComplete i) i).
  - intros inv Hi Hs. change (OnComplete i (run h) = emit (EvRejected i) (run h)).
    apply OnComplete_rejects. rewrite Hi. simpl. by rewrite Hs.
Qed.


(** C7: the deletion of an operator.  For a registered operator [op]
    in any state a history leads to: [MarkDeleted] keeps the descriptor,
    function, sets, property and count, and only marks it; marking twice
    is marking once; the count of the handle is the number of its
    invocations that have not completed; a step that frees the
    descriptor is the Deletion Manager's, on a marked descriptor whose
    count is zero, when every invocation of the operator has completed;
    and the Deletion Manager does free a marked descriptor whose count
    is zero. *)
Theorem operator_deletion_deferred h op d :
  oprs (run h) !! op = Some (Some d) →
  (∃ d', oprs (MarkDeleted op (run h)) !! op = Some (Some d') ∧
         descriptor d' = descriptor d ∧ opr_count d' = opr_count d ∧
         opr_marked d' = true) ∧
  MarkDeleted op (MarkDeleted op (run h)) = MarkDeleted op (run h) ∧
  opr_count d = outstanding op (invs (run h)) ∧
  (∀ a, oprs (step (run h) a) !! op = Some None →
     a = DoReclaim op ∧ opr_marked d = true ∧ opr_count d = 0 ∧
     ∀ i inv, invs (run h) !! i = Some inv → inv_origin inv = Some op →
              status inv = Completed) ∧
  (opr_marked d = true → opr_count d = 0 →
     oprs (Reclaim op (run h)) !! op = Some None).
Proof.
  intros Hop. pose proof (run_oprs_ok h op) as Hcount. rewrite Hop in Hcount.
  split_and!.
  - exists (with_mark d). split; [by apply MarkDeleted_retains|done].
  - apply MarkDeleted_idempotent.
  - done.
  - intros a Hfree.
    destruct (step_frees (run h) a op d Hop Hfree) as (-> & Hm & Hz).
    split_and!; try done.
    apply outstanding_zero. lia.
  - intros Hm Hz. unfold Reclaim. rewrite Hop, Hm, Hz. simpl.
    apply list_lookup_insert_eq. by eapply lookup_lt_Some.
Qed.


End Guarantees.

(** Registration through the interface *)

Section Registration.
Context {Context RunContext W : Type}.

Lemma overlap_shared (read_set write_set : list VarHandle) v :
  v ∈ read_set → v ∈ write_set → overlap read_set write_set = true.
Proof.
  intros Hr Hw. unfold overlap. apply existsb_exists. exists v.
  split; [by apply list_elem_of_In|by apply bool_decide_eq_true].
Qed.

(** C5: [NewOperator] on the scheduler, for a function and two variable
    lists that share a variable, raises the contract violation at the
    call and leaves the engine as it was: no descriptor is stored. *)
Theorem NewOperator_rejects_overlap (fn : AsyncFn RunContext W)
    (const_vars mutable_vars : list VarHandle) (prop : FnProperty)
    (s : Sched Context (AsyncFn RunContext W) (SyncFn RunContext W))
    (v : VarHandle) :
  v ∈ const_vars → v ∈ mutable_vars →
  NewOperator fn const_vars mutable_vars prop s = (Raise ContractViolation, s).
Proof.
  intros Hr Hw. simpl. unfold Register.
  by rewrite (overlap_shared const_vars mutable_vars v Hr Hw).
Qed.

End Registration.

(** * The statements on the example histories *)

Lemma per_variable_serializability_witness :
  granted (run Scenarios.two_writers) 1 WriteAccess 0 ∧
  invs (run Scenarios.two_writers) !! 0 =
    Some (mkInvocation (AdHoc ()) (Some ()) [] [0] kNormal 0 Completed) ∧
  precedes (EvComplete 0) (EvBegin 1) (log (run Scenarios.two_writers)).
Proof.
  pose proof (per_variable_serializability Scenarios.two_writers 0 1
    (mkInvocation (AdHoc ()) (Some ()) [] [0] kNormal 0 Completed)
    (mkInvocation (AdHoc ()) (Some ()) [] [0] kNormal 0 Running)
    0 WriteAccess WriteAccess) as H.
  destruct H as (_ & _ & Hlog).
  - vm_compute. reflexivity.
  - vm_compute. reflexivity.
  - lia.
  - simpl. left.
  - simpl. left.
  - by left.
  - split; [|split; [vm_compute; reflexivity|exact Hlog]].
    eexists. split; [vm_compute; reflexivity|reflexivity].
Defined.

Lemma second_completion_rejected_witness :
  exec (call (completion_handle 7 0)) (run Scenarios.completed_twice) =
  emit (EvRejected 0) (run Scenarios.completed_twice) ∧
  occurrences (EvComplete 0) (log (run Scenarios.completed_twice)) ≤ 1.
Proof.
  pose proof (second_completion_rejected Scenarios.completed_twice 7 0)
    as (_ & Honce & Hrej).
  split; [|exact Honce].
  apply (Hrej (mkInvocation (AdHoc ()) (Some ()) [] [0] kNormal 0 Completed)).
  - vm_compute. reflexivity.
  - reflexivity.
Defined.

Lemma NewOperator_rejects_overlap_witness :
  NewOperator (E := Sched () (AsyncFn () ()) (SyncFn () ()))
    (λ _ on_complete, call on_complete) [0; 1] [1] kNormal init =
  (Raise ContractViolation, init).
Proof.
  apply (NewOperator_rejects_overlap (Context := ()) (RunContext := ())
           (W := ()) (λ _ on_complete, call on_complete) [0; 1] [1] kNormal
           init 1).
  - right. left.
  - left.
Defined.



Lemma operator_deletion_deferred_witness :
  oprs (MarkDeleted 0 (run Scenarios.deleted_while_pushed)) !! 0 =
    Some (Some (mkOpr () [] [0] kNormal true 1)) ∧
  outstanding 0 (invs (run Scenarios.deleted_while_pushed)) = 1.
Proof.
  pose proof (operator_deletion_deferred Scenarios.deleted_while_pushed 0
    (mkOpr () [] [0] kNormal true 1)) as H.
  destruct H as (_ & _ & Hcount & _).
  - vm_compute. reflexivity.
  - split; [vm_compute; reflexivity|]. symmetry. exact Hcount.
Defined.


End SchedulerFacts.

(** * The header, further: exceptions and enumerator values *)

Module EngineExtras.

Section Closure.
Context {Exc RunContext W : Type}.
Implicit Types (exec_fn : Throwing.SyncFn Exc RunContext W).
Implicit Types (on_complete : Throwing.CallbackOnComplete Exc W).
Implicit Types (ctx : RunContext) (w : W) (x : Exc).

Lemma PushSync_lambda_outcome exec_fn ctx on_complete w :
  Throwing.PushSync_lambda exec_fn ctx on_complete w =
  match (exec_fn ctx w).1 with
  | Throwing.Returned _ => Throwing.call on_complete (exec_fn ctx w).2
  | Throwing.Thrown x => (Throwing.Thrown x, (exec_fn ctx w).2)
  end.
Proof. reflexivity. Qed.

(** X1: the closure of [PushSync] throws exactly the exceptions of the
    pushed function and, when that returned, of the completion handle:
    it leaves with exception [x] and state [w'] if and only if the
    function threw [x] leaving [w'], or the function returned and the
    handle, invoked on the state it left, threw [x] leaving [w'].  It
    returns if and only if the function returned and the handle, invoked
    on the state it left, returned. *)
Theorem PushSync_lambda_exceptions exec_fn ctx on_complete w x w' :
  (Throwing.PushSync_lambda exec_fn ctx on_complete w = (Throwing.Thrown x, w')
   ↔ exec_fn ctx w = (Throwing.Thrown x, w') ∨
     ∃ w1, exec_fn ctx w = (Throwing.Returned (), w1) ∧
           Throwing.call on_complete w1 = (Throwing.Thrown x, w')) ∧
  (Throwing.PushSync_lambda exec_fn ctx on_complete w
     = (Throwing.Returned (), w')
   ↔ ∃ w1, exec_fn ctx w = (Throwing.Returned (), w1) ∧
           Throwing.call on_complete w1 = (Throwing.Returned (), w')).
Proof.
  rewrite PushSync_lambda_outcome.
  destruct (exec_fn ctx w) as [[[]|y] w1]; simpl; split; split.
  - intros H. right. by exists w1.
  - intros [H|(w2 & H & Hc)]; [done|]. by injection H as <-.
  - intros H. by exists w1.
  - intros (w2 & H & Hc). by injection H as <-.
  - intros H. by left.
  - intros [H|(w2 & H & _)]; done.
  - done.
  - intros (w2 & H & _). done.
Qed.

(** X2: the closure of [PushSync] invokes the completion handle once
    when the pushed function returns and not at all when it throws: for
    a handle whose callback counts its invocations, whether it then
    returns or throws, the count after the closure is the count the
    function left, plus one if the function returned. *)
Theorem PushSync_lambda_calls_once_unless_thrown exec_fn ctx on_complete w
    (calls : W → nat) :
  (∀ w0, calls (Throwing.call on_complete w0).2 = S (calls w0)) →
  calls (Throwing.PushSync_lambda exec_fn ctx on_complete w).2 =
  calls (exec_fn ctx w).2 +
  match (exec_fn ctx w).1 with
  | Throwing.Returned _ => 1
  | Throwing.Thrown _ => 0
  end.
Proof.
  intros Hcalls. rewrite PushSync_lambda_outcome.
  destruct (exec_fn ctx w) as [[[]|y] w1]; simpl.
  - rewrite Hcalls. lia.
  - lia.
Qed.

(** X3: the closure of [PushSync] has no effect of its own: a property
    of the state that the pushed function and the completion handle keep,
    whether they return or throw, holds after the closure, whether it
    returns or throws. *)
Theorem PushSync_lambda_keeps_invariant exec_fn ctx on_complete w
    (I : W → Prop) :
  (∀ w0, I w0 → I (exec_fn ctx w0).2) →
  (∀ w0, I w0 → I (Throwing.call on_complete w0).2) →
  I w → I (Throwing.PushSync_lambda exec_fn ctx on_complete w).2.
Proof.
  intros Hfn Hcall Hw. rewrite PushSync_lambda_outcome.
  specialize (Hfn w Hw).
  destruct (exec_fn ctx w) as [[[]|y] w1]; simpl in *.
  - by apply Hcall.
  - done.
Qed.

(** The closure on a function and a handle that never throw is the
    wrapper of [PushSync] in the embedding of functions that return. *)
Lemma PushSync_lambda_returning (fn : SyncFn RunContext W)
    (oc : CallbackOnComplete W) ctx w :
  Throwing.PushSync_lambda (λ c, returning (fn c)) ctx
    (returning_handle (Exc := Exc) oc) w =
  returning (sync_wrapper fn ctx oc) w.
Proof. reflexivity. Qed.

End Closure.

(** X4: the values of the enumerators of [FnProperty] identify them:
    two properties with the same value are the same property, every
    value is below four, and zero is the value of [kNormal] only. *)
Theorem FnProperty_value_identifies (p q : FnProperty) :
  (FnProperty_value p = FnProperty_value q → p = q) ∧
  FnProperty_value p < 4 ∧
  (FnProperty_value p = 0 ↔ p = kNormal).
Proof.
  split_and!.
  - destruct p, q; simpl; intros H; try reflexivity; discriminate H.
  - destruct p; simpl; lia.
  - destruct p; simpl; split; intros H; try reflexivity; discriminate H.
Qed.

(** A function that throws after adding one to a counter, and a handle
    whose callback counts its invocations. *)
Lemma PushSync_lambda_exceptions_witness :
  Throwing.PushSync_lambda (Exc := nat) (RunContext := ()) (W := nat)
    (λ _ w, (Throwing.Thrown 42, w + 1)) ()
    (Throwing.CreateCallback 0 (λ _ _ w, (Throwing.Returned (), S w)) 0) 5 =
  (Throwing.Thrown 42, 6).
Proof.
  apply (proj1 (PushSync_lambda_exceptions (Exc := nat) (RunContext := ())
                  (W := nat) (λ _ w, (Throwing.Thrown 42, w + 1)) ()
                  (Throwing.CreateCallback 0
                     (λ _ _ w, (Throwing.Returned (), S w)) 0) 5 42 6)).
  left. reflexivity.
Defined.

Lemma PushSync_lambda_calls_once_unless_thrown_witness :
  (Throwing.PushSync_lambda (Exc := nat) (RunContext := ()) (W := nat)
     (λ _ w, (Throwing.Returned (), w + 10)) ()
     (Throwing.CreateCallback 0 (λ _ _ w, (Throwing.Thrown 7, S w)) 0) 5).2 =
  15 + 1.
Proof.
  apply (PushSync_lambda_calls_once_unless_thrown (Exc := nat)
           (RunContext := ()) (W := nat)
           (λ _ w, (Throwing.Returned (), w + 10)) ()
           (Throwing.CreateCallback 0 (λ _ _ w, (Throwing.Thrown 7, S w)) 0)
           5 (λ w, w)).
  intros w0. reflexivity.
Defined.

(** A state that stays even: the function adds two and returns, the
    callback adds four and throws. *)
Lemma PushSync_lambda_keeps_invariant_witness :
  Nat.Even
    (Throwing.PushSync_lambda (Exc := nat) (RunContext := ()) (W := nat)
       (λ _ w, (Throwing.Returned (), 2 + w)) ()
       (Throwing.CreateCallback 0 (λ _ _ w, (Throwing.Thrown 7, 4 + w)) 0)
       6).2.
Proof.
  apply (PushSync_lambda_keeps_invariant (Exc := nat) (RunContext := ())
           (W := nat) (λ _ w, (Throwing.Returned (), 2 + w)) ()
           (Throwing.CreateCallback 0 (λ _ _ w, (Throwing.Thrown 7, 4 + w)) 0)
           6 Nat.Even).
  - intros w0 [k Hk]. exists (S k). simpl. lia.
  - intros w0 [k Hk]. exists (S (S k)). simpl. lia.
  - exists 3. reflexivity.
Defined.

Lemma FnProperty_value_identifies_witness :
  FnProperty_value kCopyToGPU < 4 ∧ FnProperty_value kNormal = 0.
Proof.
  pose proof (FnProperty_value_identifies kCopyToGPU kCopyToGPU)
    as (_ & Hlt & _).
  pose proof (FnProperty_value_identifies kNormal kNormal) as (_ & _ & Hz).
  split; [exact Hlt|]. apply Hz. reflexivity.
Defined.

End EngineExtras.
